(** * mack: Markdown token trees to Slack BlockKit blocks

    A shallow embedding of [src/slack.ts] (the block constructors and their
    size caps) and of [src/parser/internal.ts] (the token-tree converter),
    followed by the properties of the converter. *)

From Stdlib Require Import Strings.String Strings.Ascii.
From Stdlib Require Import List NArith Arith Bool Lia DecimalString.
Import ListNotations.

Set Implicit Arguments.
Set Warnings "-register-all".

(** ** JavaScript strings

    A JavaScript string is a sequence of UTF-16 code units; [length],
    [slice], [+] and [includes] all count and compare code units.  A code
    unit is a number below 65536, kept here as an [N]. *)

Definition code_unit := N.
Definition jsstring := list code_unit.

(** An ASCII literal as a JavaScript string. *)
Definition str (s : string) : jsstring :=
  map N_of_ascii (list_ascii_of_string s).

Definition LF : code_unit := 10%N.          (* '\n' *)
Definition BULLET : code_unit := 8226%N.    (* U+2022 *)
Definition DEGREE : code_unit := 176%N.     (* U+00B0 *)

(** [s.slice(0, n)], on a string and on an array alike. *)
Definition slice0 {A : Type} (n : nat) (s : list A) : list A := firstn n s.

(** [parts.join(sep)] *)
Fixpoint join (sep : jsstring) (parts : list jsstring) : jsstring :=
  match parts with
  | [] => []
  | [p] => p
  | p :: rest => p ++ sep ++ join sep rest
  end.

(** [s.includes('\n')] *)
Definition includesLF (s : jsstring) : bool := existsb (N.eqb LF) s.

(** [s.replace(/\n/g, '\n> ')] *)
Definition replaceLF (s : jsstring) : jsstring :=
  flat_map (fun c => if N.eqb c LF then LF :: str "> " else [c]) s.

(** The template literal [`${index}`] for a non-negative integer. *)
Definition decimal (n : nat) : jsstring :=
  str (NilZero.string_of_uint (Nat.to_uint n)).

(** Truthiness of a string or of a possibly null string, and [a || b], [a ?? b]. *)
Definition truthy (s : jsstring) : bool :=
  match s with [] => false | _ :: _ => true end.

Definition or_else (a b : jsstring) : jsstring := if truthy a then a else b.

Definition opt_or_else (a : option jsstring) (b : jsstring) : jsstring :=
  match a with
  | Some s => or_else s b
  | None => b
  end.

Definition nullish_else (a : option jsstring) (b : jsstring) : jsstring :=
  match a with
  | Some s => s
  | None => b
  end.

(** ** Exceptions

    The converter has no [try]: an exception thrown anywhere aborts the
    whole call. *)

Inductive result (A : Type) : Type :=
| Ok (a : A)
| Throw.
Arguments Throw {A}.

Definition bind {A B : Type} (r : result A) (k : A -> result B) : result B :=
  match r with
  | Ok a => k a
  | Throw => Throw
  end.

Notation "x <- r ;; k" := (bind r (fun x => k))
  (at level 61, r at next level, right associativity).

(** [xs.map(f)] where [f] may throw. *)
Fixpoint mapM {A B : Type} (f : A -> result B) (xs : list A) : result (list B) :=
  match xs with
  | [] => Ok []
  | x :: rest =>
      b <- f x ;;
      bs <- mapM f rest ;;
      Ok (b :: bs)
  end.

(** [xs.flatMap(f)] where [f] may throw. *)
Fixpoint flatMapM {A B : Type} (f : A -> result (list B)) (xs : list A)
  : result (list B) :=
  match xs with
  | [] => Ok []
  | x :: rest =>
      b <- f x ;;
      bs <- flatMapM f rest ;;
      Ok (b ++ bs)
  end.

(** ** Blocks ([@slack/types]) *)

(** A [style] object of a rich-text run; an absent flag is [false]. *)
Record RichTextStyle : Type := mkStyle {
  bold : bool;
  italic : bool;
  strike : bool;
  code : bool
}.

Definition styleBold : RichTextStyle := mkStyle true false false false.
Definition styleItalic : RichTextStyle := mkStyle false true false false.
Definition styleStrike : RichTextStyle := mkStyle false false true false.
Definition styleCode : RichTextStyle := mkStyle false false false true.

Inductive RichTextElement : Type :=
| RichTextText (text : jsstring) (style : option RichTextStyle)
| RichTextLink (text : jsstring) (url : jsstring).

(** A table cell: [{type: 'raw_text', text}] or a [rich_text] block holding
    one [rich_text_section] with the given runs. *)
Inductive Cell : Type :=
| RawTextElement (text : jsstring)
| RichTextBlock (elements : list RichTextElement).

(** [image_url] is [None] when the argument passed for it was [undefined]. *)
Inductive KnownBlock : Type :=
| SectionBlock (text : jsstring)
| HeaderBlock (text : jsstring)
| ImageBlock (image_url : option jsstring) (alt_text : jsstring)
             (title : option jsstring)
| DividerBlock
| TableBlock (rows : list (list Cell)).

Definition isSectionBlock (block : KnownBlock) : bool :=
  match block with
  | SectionBlock _ => true
  | _ => false
  end.

(** ** Block constructors ([src/slack.ts]) *)

Module slack.

Definition MAX_TEXT_LENGTH : nat := 3000.
Definition MAX_TABLE_ROWS : nat := 100.
Definition MAX_TABLE_COLUMNS : nat := 20.
Definition MAX_HEADER_LENGTH : nat := 150.
Definition MAX_IMAGE_TITLE_LENGTH : nat := 2000.
Definition MAX_IMAGE_ALT_TEXT_LENGTH : nat := 2000.

Definition section (text : jsstring) : KnownBlock :=
  SectionBlock (slice0 MAX_TEXT_LENGTH text).

Definition divider : KnownBlock := DividerBlock.

Definition header (text : jsstring) : KnownBlock :=
  HeaderBlock (slice0 MAX_HEADER_LENGTH text).

(** A title that is missing, [null] or empty gives no title.  The
    declared type of [altText] is [string]; the one call that can pass
    [undefined] for it is in [parseHTML], where [altText.slice] then
    throws. *)
Definition image (url : option jsstring) (altText : jsstring)
                 (title : option jsstring) : KnownBlock :=
  ImageBlock url (slice0 MAX_IMAGE_ALT_TEXT_LENGTH altText)
    (match title with
     | Some t =>
         if truthy t then Some (slice0 MAX_IMAGE_TITLE_LENGTH t) else None
     | None => None
     end).

Definition table (rows : list (list Cell)) : KnownBlock :=
  TableBlock (map (fun row => slice0 MAX_TABLE_COLUMNS row)
                  (slice0 MAX_TABLE_ROWS rows)).

End slack.

(** ** Tokens ([marked])

    Only the fields the converter reads are kept.  [None] stands for a field
    that is [null] or [undefined]. *)

(** Inline tokens.  [Escape] stands for an inline token of any kind outside
    the [PhrasingToken] union (marked's [escape], for one). *)
Inductive PhrasingToken : Type :=
| Link (href : jsstring) (tokens : list PhrasingToken)
| Em (tokens : list PhrasingToken)
| Strong (tokens : list PhrasingToken)
| Del (tokens : list PhrasingToken)
| Br
| Image (href : jsstring) (title : option jsstring) (text : jsstring)
| Codespan (raw text : jsstring)
| Text (raw text : jsstring)
| HTML (raw : jsstring)
| Escape (raw text : jsstring).

Record TableCell : Type := mkTableCell {
  cell_tokens : list PhrasingToken
}.

(** Block-level tokens, as the lexer produces them at top level, inside a
    block quote and inside a list item. *)
Inductive Token : Type :=
| Heading (text : jsstring) (tokens : list PhrasingToken)
| Paragraph (text : jsstring) (tokens : list PhrasingToken)
| Code (text : jsstring)
| Blockquote (text : jsstring) (tokens : list Token)
| List (ordered : bool) (items : list ListItem)
| Table (header : list TableCell) (rows : list (list TableCell))
| Hr
| HtmlBlock (raw text : jsstring)
| Space
| Def
| TextBlock (text : jsstring) (tokens : option (list PhrasingToken))
with ListItem : Type :=
| mkListItem (checked : option bool) (tokens : list Token).

Definition item_checked (item : ListItem) : option bool :=
  let 'mkListItem c _ := item in c.

Definition item_tokens (item : ListItem) : list Token :=
  let 'mkListItem _ ts := item in ts.

(** [token.type] *)
Definition type (token : Token) : string :=
  match token with
  | Heading _ _ => "heading"
  | Paragraph _ _ => "paragraph"
  | Code _ => "code"
  | Blockquote _ _ => "blockquote"
  | List _ _ => "list"
  | Table _ _ => "table"
  | Hr => "hr"
  | HtmlBlock _ _ => "html"
  | Space => "space"
  | Def => "def"
  | TextBlock _ _ => "text"
  end.

(** [token.text], [None] for the kinds that have no such field. *)
Definition text_of (token : Token) : option jsstring :=
  match token with
  | Heading t _ | Paragraph t _ | Code t | Blockquote t _
  | HtmlBlock _ t | TextBlock t _ => Some t
  | List _ _ | Table _ _ | Hr | Space | Def => None
  end.

(** ** Options *)

(** Modelled from the spec: [src/types.ts] is not part of the sources; the
    one recognised option is a checkbox-prefix function from the checked
    state to a string, under [lists]. *)
Record ListOptions : Type := mkListOptions {
  checkboxPrefix : option (bool -> jsstring)
}.

Record ParsingOptions : Type := mkParsingOptions {
  lists : option ListOptions
}.

(** The default arguments [options = {}]. *)
Definition noListOptions : ListOptions := mkListOptions None.
Definition noOptions : ParsingOptions := mkParsingOptions None.

(** ** The converter ([src/parser/internal.ts]) *)

(** The fragments are only ever joined with the empty separator, where an
    [undefined] fragment (the value of the [switch] for a kind it does not
    list) reads as the empty string: such a kind is given no fragment. *)
Fixpoint parsePlainText (element : PhrasingToken) : list jsstring :=
  match element with
  | Link _ tokens | Em tokens | Strong tokens | Del tokens =>
      flat_map parsePlainText tokens
  | Br => []
  | Image href title _ => [nullish_else title href]
  | Codespan raw _ | Text raw _ | HTML raw => [raw]
  | Escape _ _ => []
  end.

(** The argument type excludes images; called on one all the same, the
    [default] branch answers. *)
Fixpoint parseMrkdwn (element : PhrasingToken) : jsstring :=
  match element with
  | Link href tokens =>
      str "<" ++ href ++ str "|" ++ join [] (map parseMrkdwn tokens) ++ str "> "
  | Em tokens => str "_" ++ join [] (map parseMrkdwn tokens) ++ str "_"
  | Codespan _ text => str "`" ++ text ++ str "`"
  | Strong tokens => str "*" ++ join [] (map parseMrkdwn tokens) ++ str "*"
  | Text _ text => text
  | Del tokens => str "~" ++ join [] (map parseMrkdwn tokens) ++ str "~"
  | _ => []
  end.

(** [accumulator[accumulator.length - 1]], [undefined] on the empty array. *)
Definition lastOf {A : Type} (l : list A) : option A :=
  match l with
  | [] => None
  | x :: rest => Some (last rest x)
  end.

(** The array after an in-place update of its last element. *)
Definition setLast {A : Type} (x : A) (l : list A) : list A :=
  removelast l ++ [x].

(** The text object of a section built by [section] is always present, so
    the test [last && isSectionBlock(last) && last.text] is a test on the
    kind of the last block.  The append goes past [section] and its cap. *)
Definition addMrkdwn (content : jsstring) (accumulator : list KnownBlock)
  : list KnownBlock :=
  match lastOf accumulator with
  | Some (SectionBlock text) =>
      setLast (SectionBlock (text ++ content)) accumulator
  | _ => accumulator ++ [slack.section content]
  end.

Definition parsePhrasingContent (element : PhrasingToken)
  (accumulator : list KnownBlock) : list KnownBlock :=
  match element with
  | Image href title text =>
      accumulator ++
        [slack.image (Some href) (or_else text (opt_or_else title href)) title]
  | _ => addMrkdwn (parseMrkdwn element) accumulator
  end.

(** The callback of [element.tokens.reduce]: it updates the accumulator and
    returns it. *)
Definition paragraphReducer (accumulator : list KnownBlock)
  (child : PhrasingToken) : list KnownBlock :=
  parsePhrasingContent child accumulator.

Definition parseParagraph (tokens : list PhrasingToken) : list KnownBlock :=
  fold_left paragraphReducer tokens [].

Definition parseHeading (tokens : list PhrasingToken) : KnownBlock :=
  slack.header (join [] (flat_map parsePlainText tokens)).

Definition parseCode (text : jsstring) : KnownBlock :=
  slack.section (str "```" ++ [LF] ++ text ++ [LF] ++ str "```").

Definition isImage (child : PhrasingToken) : bool :=
  match child with
  | Image _ _ _ => true
  | _ => false
  end.

(** The text of a list item whose first child is a text token with inline
    tokens. *)
Definition itemText (tokens : list PhrasingToken) : jsstring :=
  join [] (map parseMrkdwn (filter (fun child => negb (isImage child)) tokens)).

(** [paragraph?.text || ''] *)
Definition itemFallback (paragraph : option Token) : jsstring :=
  match paragraph with
  | Some p => opt_or_else (text_of p) []
  | None => []
  end.

(** One call of the callback of [element.items.map]: the line of the item
    and the value of the captured counter [index] after the call. *)
Definition parseListItem (ordered : bool) (options : ListOptions)
  (index : nat) (item : ListItem) : jsstring * nat :=
  let paragraph := nth_error (item_tokens item) 0 in
  match paragraph with
  | Some (TextBlock _ (Some (child :: children))) =>
      let text := itemText (child :: children) in
      if ordered then
        (decimal (index + 1) ++ str ". " ++ text, index + 1)
      else
        match item_checked item with
        | Some checked =>
            (match checkboxPrefix options with
             | Some prefix => prefix checked
             | None => BULLET :: str " "
             end ++ text, index)
        | None => (BULLET :: str " " ++ text, index)
        end
  | _ => (itemFallback paragraph, index)
  end.

Fixpoint listContents (ordered : bool) (options : ListOptions) (index : nat)
  (items : list ListItem) : list jsstring :=
  match items with
  | [] => []
  | item :: rest =>
      let '(line, index') := parseListItem ordered options index item in
      line :: listContents ordered options index' rest
  end.

Definition parseList (ordered : bool) (items : list ListItem)
  (options : option ListOptions) : KnownBlock :=
  let options := match options with Some o => o | None => noListOptions end in
  slack.section (join [LF] (listContents ordered options 0 items)).

(** The runs one child of a table cell pushes onto [elements]. *)
Definition cellElements (t : PhrasingToken) : list RichTextElement :=
  match t with
  | Text _ text => [RichTextText text None]
  | Strong tokens =>
      [RichTextText (join [] (flat_map parsePlainText tokens)) (Some styleBold)]
  | Em tokens =>
      [RichTextText (join [] (flat_map parsePlainText tokens)) (Some styleItalic)]
  | Del tokens =>
      [RichTextText (join [] (flat_map parsePlainText tokens)) (Some styleStrike)]
  | Codespan _ text => [RichTextText text (Some styleCode)]
  | Link href tokens =>
      [RichTextLink (or_else (join [] (flat_map parsePlainText tokens)) href) href]
  | Image href title _ => [RichTextText (opt_or_else title href) None]
  | Br | HTML _ => []
  | Escape _ _ => []
  end.

Definition parseTableCellToRichText (cell : TableCell) : Cell :=
  let elements := flat_map cellElements (cell_tokens cell) in
  match elements with
  | [] => RawTextElement []
  | [RichTextText text None] => RawTextElement text
  | _ => RichTextBlock elements
  end.

Definition parseTable (header : list TableCell) (rows : list (list TableCell))
  : KnownBlock :=
  let allRows := header :: rows in
  let parsedRows := map (fun row => map parseTableCellToRichText row) allRows in
  slack.table parsedRows.

Definition isParagraph (child : Token) : bool :=
  match child with
  | Paragraph _ _ => true
  | _ => false
  end.

(** [p.tokens] of a child that passed the [paragraph] filter. *)
Definition paragraphTokens (p : Token) : list PhrasingToken :=
  match p with
  | Paragraph _ tokens => tokens
  | _ => []
  end.

(** The callback mapped over the blocks of a quoted paragraph. *)
Definition quoteBlock (block : KnownBlock) : KnownBlock :=
  match block with
  | SectionBlock text =>
      if includesLF text then SectionBlock (str "> " ++ replaceLF text)
      else block
  | _ => block
  end.

Definition parseBlockquote (tokens : list Token) : list KnownBlock :=
  flat_map (fun p => map quoteBlock (parseParagraph (paragraphTokens p)))
           (filter isParagraph tokens).

Definition parseThematicBreak : KnownBlock := slack.divider.

(** *** Raw HTML

    [fast-xml-parser] is an external library.  What [parseHTML] reads of its
    result is the property [img]: missing, one node or an array of nodes,
    where a node is an object with attributes or a primitive value (the text
    of an element without attributes). *)

Inductive XmlNode : Type :=
| XmlLeaf (is_truthy : bool)
| XmlElement (src alt : option jsstring).

Inductive XmlImg : Type :=
| ImgAbsent
| ImgOne (node : XmlNode)
| ImgMany (nodes : list XmlNode).

(** [img['@_src']] and [img['@_alt']] *)
Definition attr_src (img : XmlNode) : option jsstring :=
  match img with
  | XmlElement src _ => src
  | XmlLeaf _ => None
  end.

Definition attr_alt (img : XmlNode) : option jsstring :=
  match img with
  | XmlElement _ alt => alt
  | XmlLeaf _ => None
  end.

(** The callback of [tags.map]: [image(url, img['@_alt'] || url)].  With
    neither attribute the alt text is [undefined] and [image] throws. *)
Definition imgBlock (img : XmlNode) : result KnownBlock :=
  let url := attr_src img in
  let altText :=
    match attr_alt img with
    | Some alt => if truthy alt then Some alt else url
    | None => url
    end in
  match altText with
  | Some alt => Ok (slack.image url alt None)
  | None => Throw
  end.

Section Converter.

(** [new XMLParser({ignoreAttributes: false}).parse(raw).img]; the parser
    itself may throw. *)
Variable xmlParseImg : jsstring -> result XmlImg.

(** The final [filter(e => !!e)] keeps every block. *)
Definition parseHTML (raw : jsstring) : result (list KnownBlock) :=
  img <- xmlParseImg raw ;;
  match img with
  | ImgAbsent | ImgOne (XmlLeaf false) => Ok []
  | ImgOne node => mapM imgBlock [node]
  | ImgMany nodes => mapM imgBlock nodes
  end.

Definition parseToken (token : Token) (options : ParsingOptions)
  : result (list KnownBlock) :=
  match token with
  | Heading _ tokens => Ok [parseHeading tokens]
  | Paragraph _ tokens => Ok (parseParagraph tokens)
  | Code text => Ok [parseCode text]
  | Blockquote _ tokens => Ok (parseBlockquote tokens)
  | List ordered items => Ok [parseList ordered items (lists options)]
  | Table header rows => Ok [parseTable header rows]
  | Hr => Ok [parseThematicBreak]
  | HtmlBlock raw _ => parseHTML raw
  | _ => Ok []
  end.

Definition parseBlocks (tokens : list Token) (options : ParsingOptions)
  : result (list KnownBlock) :=
  flatMapM (fun token => parseToken token options) tokens.

End Converter.

(** A parser that finds no [img] in any input, for tokens without HTML. *)
Definition noImg (raw : jsstring) : result XmlImg := Ok ImgAbsent.

(** ** The tokenizer overrides ([src/index.ts])

    [markdownToBlocks] replaces two rules of the tokenizer of [marked] before
    lexing.  The lexer, the regular expressions and [he.decode] are external;
    the overrides are modelled from the match of their rule onwards. *)

Definition AMP : code_unit := 38%N.      (* '&' *)
Definition LT : code_unit := 60%N.       (* '<' *)
Definition GT : code_unit := 62%N.       (* '>' *)
Definition SPACE : code_unit := 32%N.    (* ' ' *)

(** [replacements[char]], [None] for a key the record does not have. *)
Definition replacements (char : code_unit) : option jsstring :=
  if N.eqb char AMP then Some (str "&amp;")
  else if N.eqb char LT then Some (str "&lt;")
  else if N.eqb char GT then Some (str "&gt;")
  else None.

(** The character class [[&<>]]. *)
Definition isSpecial (char : code_unit) : bool :=
  N.eqb char AMP || N.eqb char LT || N.eqb char GT.

(** [decoded.replace(/[&<>]/g, char => replacements[char])]: a replacement
    that is [undefined] would be written out as that word. *)
Definition escapeSpecial (decoded : jsstring) : jsstring :=
  flat_map (fun char =>
              if isSpecial char then
                match replacements char with
                | Some replacement => replacement
                | None => str "undefined"
                end
              else [char])
           decoded.

(** [s.substring(start, end)]: the two bounds are swapped when out of order. *)
Definition substring (start stop : nat) (s : jsstring) : jsstring :=
  skipn (Nat.min start stop) (firstn (Nat.max start stop) s).

(** [/^ /.test(text)] and [/ $/.test(text)] *)
Definition startsWithSpace (text : jsstring) : bool :=
  match text with
  | c :: _ => N.eqb c SPACE
  | [] => false
  end.

Definition endsWithSpace (text : jsstring) : bool :=
  match lastOf text with
  | Some c => N.eqb c SPACE
  | None => false
  end.

(** The text that [tokenizer.codespan] computes from the second group of
    its match, before decoding and escaping. *)
Definition codespanText (cap2 : jsstring) : jsstring :=
  let text := map (fun c => if N.eqb c LF then SPACE else c) cap2 in
  let hasNonSpaceChars := existsb (fun c => negb (N.eqb c SPACE)) text in
  let hasSpaceCharsOnBothEnds := startsWithSpace text && endsWithSpace text in
  if hasNonSpaceChars && hasSpaceCharsOnBothEnds
  then substring 1 (length text - 1) text
  else text.

Section Tokenizer.

(** [he.decode(src, {isAttributeValue: false, strict: false})] *)
Variable decode : jsstring -> jsstring.

Definition decodeAndEscape (src : jsstring) : jsstring :=
  escapeSpecial (decode src).

(** [tokenizer.inlineText], given [cap[0]] of the match of the inline text
    rule, or [None] when the rule does not match. *)
Definition inlineText (cap : option jsstring) : option PhrasingToken :=
  match cap with
  | None => None
  | Some cap0 => Some (Text cap0 (decodeAndEscape cap0))
  end.

(** [tokenizer.codespan], given [cap[0]] and [cap[2]] of the match of
    [codespanRule], or [None] when the rule does not match. *)
Definition codespan (cap : option (jsstring * jsstring))
  : option PhrasingToken :=
  match cap with
  | None => None
  | Some (cap0, cap2) =>
      Some (Codespan cap0 (decodeAndEscape (codespanText cap2)))
  end.

End Tokenizer.

(** ** Inputs of the test suite, as [marked] tokenises them *)

(** An inline text token without entities: [raw] and [text] agree. *)
Definition txt (s : jsstring) : PhrasingToken := Text s s.

(** ["**a ~b~** c[*d*](https://example.com)"] *)
Definition basicMarkdown : Token :=
  Paragraph (str "**a ~b~** c[*d*](https://example.com)")
    [ Strong [txt (str "a "); Del [txt (str "b")]];
      txt (str " c");
      Link (str "https://example.com") [Em [txt (str "d")]] ].

(** ["(-26°C)**Conditions:** Light"] *)
Definition conditionsMarkdown : Token :=
  Paragraph (str "(-26" ++ DEGREE :: str "C)**Conditions:** Light")
    [ txt (str "(-26" ++ DEGREE :: str "C)");
      Strong [txt (str "Conditions:")];
      txt (str " Light") ].

(** Three thousand times the letter a, then ["**b**"]. *)
Definition longMarkdown : Token :=
  let a3000 := repeat 97%N 3000 in
  Paragraph (a3000 ++ str "**b**") [ txt a3000; Strong [txt (str "b")] ].

(** ** Notions used to state the properties *)

(** The size caps of a block, the cap on the text of a section aside. *)
Definition withinOtherCaps (block : KnownBlock) : Prop :=
  match block with
  | SectionBlock _ => True
  | HeaderBlock text => length text <= 150
  | ImageBlock _ alt_text title =>
      length alt_text <= 2000
      /\ match title with
         | Some text => length text <= 2000
         | None => True
         end
  | DividerBlock => True
  | TableBlock rows =>
      length rows <= 100 /\ Forall (fun row => length row <= 20) rows
  end.

(** All the size caps of a block. *)
Definition withinCaps (block : KnownBlock) : Prop :=
  withinOtherCaps block
  /\ match block with
     | SectionBlock text => length text <= 3000
     | _ => True
     end.

(** The lines of a text: the pieces between its newlines. *)
Fixpoint splitLF (s : jsstring) : list jsstring :=
  match s with
  | [] => [[]]
  | c :: rest =>
      if N.eqb c LF then [] :: splitLF rest
      else match splitLF rest with
           | line :: lines => (c :: line) :: lines
           | [] => [[c]]
           end
  end.

(** The inline tokens of the first child of a list item, when that child is
    a text token that has some. *)
Definition itemInline (item : ListItem) : option (list PhrasingToken) :=
  match item_tokens item with
  | TextBlock _ (Some (child :: children)) :: _ => Some (child :: children)
  | _ => None
  end.

(** The line of a list item that has inline tokens, given its number in
    the list: the marker, then the item text. *)
Definition markedLine (ordered : bool) (options : ListOptions)
  (entry : nat * ListItem) : jsstring :=
  let (number, item) := entry in
  (if ordered then decimal number ++ str ". "
   else match item_checked item with
        | Some checked =>
            match checkboxPrefix options with
            | Some prefix => prefix checked
            | None => BULLET :: str " "
            end
        | None => BULLET :: str " "
        end)
    ++ match itemInline item with
       | Some tokens =>
           concat (map parseMrkdwn
                       (filter (fun child => negb (isImage child)) tokens))
       | None => []
       end.

(** The value of the counter of [parseList] after the given items. *)
Fixpoint indexAfter (ordered : bool) (options : ListOptions) (index : nat)
  (items : list ListItem) : nat :=
  match items with
  | [] => index
  | item :: rest =>
      indexAfter ordered options
        (snd (parseListItem ordered options index item)) rest
  end.

(** The token kinds [parseToken] has a case for. *)
Definition handledTypes : list string :=
  ["heading"; "paragraph"; "code"; "blockquote"; "list"; "table"; "hr";
   "html"]%string.

(** The strings that [parseMrkdwn] copies from a token tree, in order. *)
Fixpoint literals (element : PhrasingToken) : list jsstring :=
  match element with
  | Link href tokens => href :: flat_map literals tokens
  | Em tokens | Strong tokens | Del tokens => flat_map literals tokens
  | Codespan _ text | Text _ text => [text]
  | _ => []
  end.

(** The characters that [parseMrkdwn] adds around them. *)
Fixpoint delimiters (element : PhrasingToken) : jsstring :=
  match element with
  | Link _ tokens => str "<|> " ++ flat_map delimiters tokens
  | Em tokens => str "__" ++ flat_map delimiters tokens
  | Strong tokens => str "**" ++ flat_map delimiters tokens
  | Del tokens => str "~~" ++ flat_map delimiters tokens
  | Codespan _ _ => str "``"
  | _ => []
  end.

(** The number of links in a token tree. *)
Fixpoint linkCount (element : PhrasingToken) : nat :=
  match element with
  | Link _ tokens => S (list_sum (map linkCount tokens))
  | Em tokens | Strong tokens | Del tokens => list_sum (map linkCount tokens)
  | _ => 0
  end.

Definition isImageBlock (block : KnownBlock) : bool :=
  match block with
  | ImageBlock _ _ _ => true
  | _ => false
  end.

(** No section directly follows a section. *)
Fixpoint noAdjacentSections (blocks : list KnownBlock) : Prop :=
  match blocks with
  | SectionBlock _ :: SectionBlock _ :: _ => False
  | _ :: rest => noAdjacentSections rest
  | [] => True
  end.

(** The blocks of a paragraph read from left to right, given the text of
    the section that is open, if any. *)
Fixpoint blocksFrom (open : option jsstring) (tokens : list PhrasingToken)
  : list KnownBlock :=
  let flush := match open with
               | Some text => [SectionBlock text]
               | None => []
               end in
  match tokens with
  | [] => flush
  | Image href title text :: rest =>
      flush
        ++ slack.image (Some href) (or_else text (opt_or_else title href)) title
        :: blocksFrom None rest
  | child :: rest =>
      blocksFrom
        (Some match open with
              | Some text => text ++ parseMrkdwn child
              | None => slice0 slack.MAX_TEXT_LENGTH (parseMrkdwn child)
              end)
        rest
  end.

(** Whether the first child of a list item is a text token with inline
    tokens. *)
Definition hasInline (item : ListItem) : bool :=
  match itemInline item with
  | Some _ => true
  | None => false
  end.

(** The number of flags that are set in a style. *)
Definition flagCount (style : RichTextStyle) : nat :=
  (if bold style then 1 else 0) + (if italic style then 1 else 0)
  + (if strike style then 1 else 0) + (if code style then 1 else 0).

(** A child of a table cell that pushes no run. *)
Definition isSilent (child : PhrasingToken) : bool :=
  match child with
  | Br | HTML _ | Escape _ _ => true
  | _ => false
  end.

(** The [tags] array of [parseHTML], empty when [res.img] is falsy. *)
Definition imgNodes (img : XmlImg) : list XmlNode :=
  match img with
  | ImgAbsent | ImgOne (XmlLeaf false) => []
  | ImgOne node => [node]
  | ImgMany nodes => nodes
  end.

(** The text of a section, the empty string for another block. *)
Definition sectionText (block : KnownBlock) : jsstring :=
  match block with
  | SectionBlock text => text
  | _ => []
  end.

(** The three characters that mark bold, italic and strike. *)
Definition isStyleDelimiter (c : code_unit) : bool :=
  N.eqb c 42%N || N.eqb c 95%N || N.eqb c 126%N.

(** A token tree made of emphasis, strong and strikethrough around text
    tokens whose text is their source and holds no style delimiter. *)
Fixpoint styledOnly (element : PhrasingToken) : Prop :=
  match element with
  | Em tokens | Strong tokens | Del tokens =>
      fold_right (fun child rest => styledOnly child /\ rest) True tokens
  | Text raw text =>
      raw = text /\ Forall (fun c => isStyleDelimiter c = false) text
  | _ => False
  end.

(** * Properties *)

(** A list of one block within its caps. *)
Ltac one_block lemma := constructor; [apply lemma | constructor].

Unset Implicit Arguments.

(** ** Strings and accumulators *)

Lemma join_empty_sep (parts : list jsstring) : join [] parts = concat parts.
Proof.
  induction parts as [|p rest IH]; [reflexivity|].
  destruct rest as [|q rest].
  - simpl. now rewrite app_nil_r.
  - change (join [] (p :: q :: rest)) with (p ++ [] ++ join [] (q :: rest)).
    rewrite IH. reflexivity.
Qed.

Lemma slice0_length {A : Type} (n : nat) (s : list A) :
  length (slice0 n s) <= n.
Proof. unfold slice0. rewrite length_firstn. lia. Qed.

Lemma slice0_short {A : Type} (n : nat) (s : list A) :
  length s <= n -> slice0 n s = s.
Proof. intros H. unfold slice0. now apply firstn_all2. Qed.

Lemma or_else_empty (s : jsstring) : or_else s [] = s.
Proof. now destruct s. Qed.

Lemma lastOf_app_one {A : Type} (l : list A) (x : A) : lastOf (l ++ [x]) = Some x.
Proof.
  destruct l as [|y l]; [reflexivity|].
  simpl. f_equal. now rewrite last_last.
Qed.

Lemma setLast_app_one {A : Type} (l : list A) (x y : A) :
  setLast y (l ++ [x]) = l ++ [y].
Proof. unfold setLast. now rewrite removelast_last. Qed.

(** ** C3: inline markup of a paragraph *)

(** C3. The paragraph ["**a ~b~** c[*d*](https://example.com)"] converts to
    the single section ["*a ~b~* c<https://example.com|_d_> "], whatever the
    options; and in general emphasis is wrapped in underscores, strong in
    asterisks, strikethrough in tildes, a link as [<url|children>] followed
    by a space, each around the renderings of the children concatenated in
    order. *)
Theorem basic_markdown_section :
  (forall xml options,
      parseBlocks xml [basicMarkdown] options
      = Ok [slack.section (str "*a ~b~* c<https://example.com|_d_> ")])
  /\ (forall tokens,
         parseMrkdwn (Em tokens)
         = str "_" ++ concat (map parseMrkdwn tokens) ++ str "_")
  /\ (forall tokens,
         parseMrkdwn (Strong tokens)
         = str "*" ++ concat (map parseMrkdwn tokens) ++ str "*")
  /\ (forall tokens,
         parseMrkdwn (Del tokens)
         = str "~" ++ concat (map parseMrkdwn tokens) ++ str "~")
  /\ (forall href tokens,
         parseMrkdwn (Link href tokens)
         = str "<" ++ href ++ str "|" ++ concat (map parseMrkdwn tokens)
             ++ str "> ").
Proof.
  repeat split; intros; try reflexivity;
    cbn [parseMrkdwn]; now rewrite join_empty_sep.
Qed.

(** ** C2: no spacing repair *)

(** C2. On the paragraph ["(-26°C)**Conditions:** Light"] the converter
    returns one section whose text is ["(-26°C)*Conditions:* Light"]: the
    bold run is glued to the closing parenthesis, and the result differs
    from the section ["(-26°C) *Conditions:* Light"] that the test suite
    expects. *)
Theorem conditions_markdown_unspaced :
  forall xml options,
    parseBlocks xml [conditionsMarkdown] options
    = Ok [slack.section (str "(-26" ++ DEGREE :: str "C)*Conditions:* Light")]
    /\ parseBlocks xml [conditionsMarkdown] options
       <> Ok [slack.section (str "(-26" ++ DEGREE :: str "C) *Conditions:* Light")].
Proof.
  intros xml options. split; [reflexivity|].
  vm_compute. discriminate.
Qed.

(** ** C1: size caps *)

(** C1. A paragraph of three thousand letters followed by a bold letter is
    converted to one section of 3003 characters: the second inline child is
    appended to the section after its text was capped, so the cap of 3000
    is exceeded. *)
Theorem long_markdown_exceeds_cap :
  forall xml options,
    parseBlocks xml [longMarkdown] options
    = Ok [SectionBlock (repeat 97%N 3000 ++ str "*b*")]
    /\ length (repeat 97%N 3000 ++ str "*b*") = 3003
    /\ slack.MAX_TEXT_LENGTH < 3003.
Proof.
  intros xml options. split; [|split].
  - vm_compute. reflexivity.
  - vm_compute. reflexivity.
  - unfold slack.MAX_TEXT_LENGTH. lia.
Qed.

(** The rewriting of a quoted section is a second update made after the
    section was built: a quoted paragraph of 3000 characters on two lines
    gives a section of 3004 characters. *)
Lemma quoted_section_exceeds_cap :
  let text := repeat 97%N 2998 ++ LF :: str "b" in
  parseBlocks noImg [Blockquote text [Paragraph text [txt text]]] noOptions
  = Ok [SectionBlock (str "> " ++ repeat 97%N 2998 ++ LF :: str "> b")]
  /\ length (str "> " ++ repeat 97%N 2998 ++ LF :: str "> b") = 3004.
Proof. split; vm_compute; reflexivity. Qed.

(** ** C4: paragraphs *)

Lemma paragraphReducer_eq (acc : list KnownBlock) (child : PhrasingToken) :
  paragraphReducer acc child = parsePhrasingContent child acc.
Proof. reflexivity. Qed.

(** The step looks at the last block only. *)
Lemma addMrkdwn_frame (content : jsstring) (acc acc' : list KnownBlock) :
  acc' <> [] ->
  addMrkdwn content (acc ++ acc') = acc ++ addMrkdwn content acc'.
Proof.
  intros Hne.
  destruct (exists_last Hne) as [l [x ->]].
  unfold addMrkdwn.
  rewrite app_assoc, !lastOf_app_one.
  destruct x; rewrite ?setLast_app_one, <- ?app_assoc; reflexivity.
Qed.

Lemma parsePhrasingContent_frame (child : PhrasingToken)
      (acc acc' : list KnownBlock) :
  acc' <> [] ->
  parsePhrasingContent child (acc ++ acc')
  = acc ++ parsePhrasingContent child acc'.
Proof.
  intros Hne.
  destruct child; cbn [parsePhrasingContent];
    solve [ now apply addMrkdwn_frame | now rewrite app_assoc ].
Qed.

Lemma addMrkdwn_nonempty (content : jsstring) (acc : list KnownBlock) :
  addMrkdwn content acc <> [].
Proof.
  unfold addMrkdwn, setLast.
  destruct (lastOf acc) as [[]|]; intros H; now apply app_eq_nil in H.
Qed.

Lemma parsePhrasingContent_nonempty (child : PhrasingToken)
      (acc : list KnownBlock) :
  parsePhrasingContent child acc <> [].
Proof.
  destruct child; cbn [parsePhrasingContent];
    solve [ apply addMrkdwn_nonempty
          | intros H; now apply app_eq_nil in H ].
Qed.

Lemma fold_frame (children : list PhrasingToken) :
  forall acc acc' : list KnownBlock,
    acc' <> [] ->
    fold_left paragraphReducer children (acc ++ acc')
    = acc ++ fold_left paragraphReducer children acc'.
Proof.
  induction children as [|child rest IH]; intros acc acc' Hne; [reflexivity|].
  cbn [fold_left].
  rewrite !paragraphReducer_eq.
  rewrite parsePhrasingContent_frame by assumption.
  apply IH, parsePhrasingContent_nonempty.
Qed.


Lemma fold_after_block (block : KnownBlock) (children : list PhrasingToken) :
  forall acc : list KnownBlock,
    fold_left paragraphReducer children (acc ++ [block])
    = acc ++ fold_left paragraphReducer children [block].
Proof. intros acc. now apply fold_frame. Qed.


Lemma parsePhrasingContent_after (block : KnownBlock) (child : PhrasingToken) :
  isSectionBlock block = false ->
  parsePhrasingContent child [block] = block :: parsePhrasingContent child [].
Proof.
  intros Hblock.
  destruct child; destruct block; try discriminate; reflexivity.
Qed.

(** A block that is not a section is closed: what follows starts afresh. *)
Lemma parseParagraph_after (block : KnownBlock) (children : list PhrasingToken) :
  isSectionBlock block = false ->
  fold_left paragraphReducer children [block]
  = block :: parseParagraph children.
Proof.
  intros Hblock. unfold parseParagraph.
  destruct children as [|child rest]; [reflexivity|].
  cbn [fold_left]. rewrite !paragraphReducer_eq.
  rewrite parsePhrasingContent_after by assumption.
  change (block :: parsePhrasingContent child [])
    with ([block] ++ parsePhrasingContent child []).
  rewrite fold_frame by apply parsePhrasingContent_nonempty.
  reflexivity.
Qed.






(** ** C5: tables *)

(** C5. A table token gives exactly one table block.  Its rows are the first
    100 rows of the header row followed by the body rows, in order; each row
    is made of its first 20 cells, each converted on its own by the cell
    renderer.  So the block has at most 100 rows of at most 20 cells. *)
Theorem table_rows_capped :
  forall xml options (header : list TableCell) (rows : list (list TableCell)),
  exists out : list (list Cell),
    parseToken xml (Table header rows) options = Ok [TableBlock out]
    /\ out = map (fun row => map parseTableCellToRichText (firstn 20 row))
                 (firstn 100 (header :: rows))
    /\ length out = Nat.min 100 (S (length rows))
    /\ Forall (fun row => length row <= 20) out.
Proof.
  intros xml options header rows.
  assert (E : map (fun row => slice0 slack.MAX_TABLE_COLUMNS row)
                  (slice0 slack.MAX_TABLE_ROWS
                     (map (fun row => map parseTableCellToRichText row)
                          (header :: rows)))
              = map (fun row => map parseTableCellToRichText (firstn 20 row))
                    (firstn 100 (header :: rows))).
  { unfold slice0, slack.MAX_TABLE_ROWS, slack.MAX_TABLE_COLUMNS.
    rewrite firstn_map, map_map.
    apply map_ext. intros row. now rewrite firstn_map. }
  eexists. split; [|split; [|split]].
  - unfold parseToken, parseTable, slack.table. rewrite E. reflexivity.
  - reflexivity.
  - rewrite length_map, length_firstn. reflexivity.
  - apply Forall_map, Forall_forall. intros row _.
    rewrite length_map, length_firstn. lia.
Qed.

(** ** C8: table cells *)

(** C8. Each child of a table cell gives at most one run: a text child a
    plain run; a strong, emphasis or strikethrough child one run holding the
    flattened plain text of its children with the bold, italic or strike
    flag alone; a code span a run with the code flag alone; a link a link
    run whose text is the flattened text, or the url when that is empty; an
    image a plain run with its title, or the url when the title is missing
    or empty; a line break or raw HTML nothing.  The runs of the children
    are collected in order, and the cell collapses: no run gives a raw text
    with the empty string, a single plain run a raw text with its text,
    anything else a rich text holding all the runs. *)
Theorem table_cell_runs :
  (forall raw text, cellElements (Text raw text) = [RichTextText text None])
  /\ (forall tokens,
         cellElements (Strong tokens)
         = [RichTextText (concat (flat_map parsePlainText tokens))
              (Some (mkStyle true false false false))])
  /\ (forall tokens,
         cellElements (Em tokens)
         = [RichTextText (concat (flat_map parsePlainText tokens))
              (Some (mkStyle false true false false))])
  /\ (forall tokens,
         cellElements (Del tokens)
         = [RichTextText (concat (flat_map parsePlainText tokens))
              (Some (mkStyle false false true false))])
  /\ (forall raw text,
         cellElements (Codespan raw text)
         = [RichTextText text (Some (mkStyle false false false true))])
  /\ (forall href tokens,
         cellElements (Link href tokens)
         = [RichTextLink
              (match concat (flat_map parsePlainText tokens) with
               | [] => href
               | flat => flat
               end) href])
  /\ (forall href title text,
         cellElements (Image href title text)
         = [RichTextText
              (match title with
               | Some (c :: t) => c :: t
               | _ => href
               end) None])
  /\ cellElements Br = []
  /\ (forall raw, cellElements (HTML raw) = [])
  /\ (forall cell : TableCell,
         let runs := concat (map cellElements (cell_tokens cell)) in
         (runs = [] -> parseTableCellToRichText cell = RawTextElement [])
         /\ (forall text,
                runs = [RichTextText text None] ->
                parseTableCellToRichText cell = RawTextElement text)
         /\ (runs <> [] ->
             (forall text, runs <> [RichTextText text None]) ->
             parseTableCellToRichText cell = RichTextBlock runs)).
Proof.
  repeat match goal with |- _ /\ _ => split end;
    try (intros; cbn [cellElements]; rewrite ?join_empty_sep; reflexivity).
  - intros href tokens. cbn [cellElements]. rewrite join_empty_sep.
    now destruct (concat (flat_map parsePlainText tokens)).
  - intros href [[|c t]|] text; reflexivity.
  - intros cell runs. subst runs. unfold parseTableCellToRichText.
    rewrite <- flat_map_concat_map.
    destruct (flat_map cellElements (cell_tokens cell)) as [|run runs].
    + repeat split; try reflexivity; try discriminate. intros H; now elim H.
    + repeat split; try discriminate.
      * intros text H. now inversion H.
      * intros _ Hrich.
        destruct run as [text [style|]|text url]; try reflexivity.
        destruct runs; [|reflexivity]. now elim (Hrich text).
Qed.

Lemma table_cell_runs_witness :
  parseTableCellToRichText (mkTableCell [txt (str "Cell 1")])
  = RawTextElement (str "Cell 1")
  /\ parseTableCellToRichText (mkTableCell [Strong [txt (str "Bold")]])
     = RichTextBlock [RichTextText (str "Bold") (Some styleBold)].
Proof.
  pose proof table_cell_runs as H.
  do 9 (destruct H as [_ H]).
  split.
  - apply (H (mkTableCell [txt (str "Cell 1")])). reflexivity.
  - apply (H (mkTableCell [Strong [txt (str "Bold")]])).
    + discriminate.
    + discriminate.
Defined.

(** ** C9: token kinds without a handler *)

Lemma parseToken_unhandled xml options (token : Token) :
  ~ In (type token) handledTypes -> parseToken xml token options = Ok [].
Proof.
  intros H.
  destruct token; try reflexivity; exfalso; apply H; cbn; tauto.
Qed.

(** C9. A token whose kind is none of heading, paragraph, code, blockquote,
    list, table, hr and html is converted to the empty list of blocks
    without an exception, and so is a whole input made of such tokens. *)
Theorem unhandled_tokens_give_nothing :
  forall xml options (tokens : list Token),
    Forall (fun token => ~ In (type token) handledTypes) tokens ->
    parseBlocks xml tokens options = Ok []
    /\ forall token, In token tokens -> parseToken xml token options = Ok [].
Proof.
  intros xml options tokens Htokens. split.
  - induction Htokens as [|token rest Htoken _ IH]; [reflexivity|].
    unfold parseBlocks in *. cbn [flatMapM].
    rewrite (parseToken_unhandled xml options token Htoken). cbn [bind].
    now rewrite IH.
  - intros token Hin. apply parseToken_unhandled.
    now apply (proj1 (Forall_forall _ _) Htokens).
Qed.

Lemma unhandled_tokens_give_nothing_witness :
  parseBlocks noImg [Space; Def; TextBlock (str "x") None] noOptions = Ok [].
Proof.
  apply (unhandled_tokens_give_nothing noImg noOptions
           [Space; Def; TextBlock (str "x") None]).
  repeat constructor; cbn; intros H;
    repeat (destruct H as [H|H]; [discriminate H|]); exact H.
Defined.

(** ** C7: block quotes *)

Lemma splitLF_nonempty (s : jsstring) : splitLF s <> [].
Proof.
  destruct s as [|c rest]; cbn; [discriminate|].
  destruct (N.eqb c LF); [discriminate|].
  destruct (splitLF rest); discriminate.
Qed.

Lemma join_cons_cons (sep p q : jsstring) (rest : list jsstring) :
  join sep (p :: q :: rest) = p ++ sep ++ join sep (q :: rest).
Proof. reflexivity. Qed.

Lemma join_head_app (sep a p : jsstring) (rest : list jsstring) :
  join sep ((a ++ p) :: rest) = a ++ join sep (p :: rest).
Proof.
  destruct rest as [|q rest]; [reflexivity|].
  rewrite !join_cons_cons. now rewrite <- app_assoc.
Qed.

(** Replacing the newlines puts the marker in front of every line but the
    first. *)
Lemma replaceLF_lines (s : jsstring) :
  replaceLF s
  = join [LF] (match splitLF s with
               | first :: others => first :: map (app (str "> ")) others
               | [] => []
               end).
Proof.
  induction s as [|c rest IH]; [reflexivity|].
  unfold replaceLF in *. cbn [flat_map splitLF].
  destruct (N.eqb c LF) eqn:Ec.
  - rewrite IH.
    destruct (splitLF rest) as [|first others] eqn:E;
      [now elim (splitLF_nonempty rest)|].
    cbn [map]. rewrite join_cons_cons.
    change (str "> " ++ first) with ((str "> ") ++ first).
    rewrite (join_head_app [LF] (str "> ") first). reflexivity.
  - rewrite IH.
    destruct (splitLF rest) as [|first others] eqn:E;
      [now elim (splitLF_nonempty rest)|].
    change (c :: first) with ([c] ++ first).
    now rewrite join_head_app.
Qed.

Lemma replaceLF_app (a b : jsstring) :
  replaceLF (a ++ b) = replaceLF a ++ replaceLF b.
Proof. unfold replaceLF. apply flat_map_app. Qed.

Lemma replaceLF_none (s : jsstring) : ~ In LF s -> replaceLF s = s.
Proof.
  induction s as [|c rest IH]; intros Hs; [reflexivity|].
  unfold replaceLF in *. cbn [flat_map].
  destruct (N.eqb_spec c LF) as [->|Hc].
  - elim Hs. now left.
  - cbn. f_equal. apply IH. intros Hin. apply Hs. now right.
Qed.

Lemma includesLF_In (s : jsstring) : includesLF s = true <-> In LF s.
Proof.
  unfold includesLF. rewrite existsb_exists. split.
  - intros [c [Hin Hc]]. apply N.eqb_eq in Hc. now subst.
  - intros Hin. exists LF. split; [assumption|apply N.eqb_refl].
Qed.

Lemma parseBlockquote_cons (child : Token) (rest : list Token) :
  parseBlockquote (child :: rest)
  = (if isParagraph child
     then map quoteBlock (parseParagraph (paragraphTokens child))
     else [])
      ++ parseBlockquote rest.
Proof.
  unfold parseBlockquote. cbn [filter].
  destruct (isParagraph child); reflexivity.
Qed.

(** C7. The blocks of a block quote are those of its paragraph children, in
    order; a child of another kind gives nothing.  Among these blocks a
    section whose text holds a newline gets the text ["> "] followed by the
    old text with every newline replaced by a newline and ["> "], which puts
    ["> "] in front of each of its lines; a section without a newline and a
    block of another kind are returned as they are. *)
Theorem blockquote_paragraphs :
  (forall xml options text tokens,
      parseToken xml (Blockquote text tokens) options
      = Ok (parseBlockquote tokens))
  /\ parseBlockquote [] = []
  /\ (forall text tokens rest,
         parseBlockquote (Paragraph text tokens :: rest)
         = map quoteBlock (parseParagraph tokens) ++ parseBlockquote rest)
  /\ (forall child rest,
         type child <> "paragraph"%string ->
         parseBlockquote (child :: rest) = parseBlockquote rest)
  /\ (forall text,
         In LF text ->
         quoteBlock (SectionBlock text)
         = SectionBlock (str "> " ++ replaceLF text)
         /\ str "> " ++ replaceLF text
            = join [LF] (map (app (str "> ")) (splitLF text)))
  /\ (forall a b,
         replaceLF (a ++ LF :: b) = replaceLF a ++ LF :: str "> " ++ replaceLF b)
  /\ (forall text, ~ In LF text -> replaceLF text = text)
  /\ (forall text,
         ~ In LF text -> quoteBlock (SectionBlock text) = SectionBlock text)
  /\ (forall block, isSectionBlock block = false -> quoteBlock block = block).
Proof.
  refine (conj _ (conj _ (conj _ (conj _ (conj _ (conj _ (conj _ (conj _ _)))))))).
  - reflexivity.
  - reflexivity.
  - intros text tokens rest. now rewrite parseBlockquote_cons.
  - intros child rest Hchild. rewrite parseBlockquote_cons.
    destruct child; try reflexivity. now elim Hchild.
  - intros text Htext. split.
    + cbn [quoteBlock]. apply includesLF_In in Htext. now rewrite Htext.
    + rewrite replaceLF_lines.
      destruct (splitLF text) as [|first others] eqn:E;
        [now elim (splitLF_nonempty text)|].
      cbn [map]. now rewrite join_head_app.
  - intros a b. now rewrite replaceLF_app.
  - apply replaceLF_none.
  - intros text Htext. cbn [quoteBlock].
    destruct (includesLF text) eqn:E; [|reflexivity].
    apply includesLF_In in E. now elim Htext.
  - intros [] Hblock; try discriminate; reflexivity.
Qed.

Lemma blockquote_paragraphs_witness :
  parseBlockquote
    [ Heading (str "h") [txt (str "h")];
      Paragraph (str "a" ++ LF :: str "b") [txt (str "a" ++ LF :: str "b")] ]
  = [SectionBlock (str "> a" ++ LF :: str "> b")].
Proof.
  destruct blockquote_paragraphs
    as (_ & _ & Hpara & Hother & Hquote & _ & _ & _ & _).
  rewrite Hother by discriminate.
  rewrite Hpara.
  change (parseParagraph [txt (str "a" ++ LF :: str "b")])
    with [SectionBlock (str "a" ++ LF :: str "b")].
  cbn [map].
  rewrite (proj1 (Hquote (str "a" ++ LF :: str "b")
                         (or_intror (or_introl eq_refl)))).
  reflexivity.
Defined.

(** ** C10 and C6: lists *)

Lemma listContents_app ordered options (a b : list ListItem) :
  forall index,
    listContents ordered options index (a ++ b)
    = listContents ordered options index a
        ++ listContents ordered options (indexAfter ordered options index a) b.
Proof.
  induction a as [|item rest IH]; intros index; [reflexivity|].
  cbn [app listContents indexAfter].
  destruct (parseListItem ordered options index item) as [line index'].
  cbn [snd]. now rewrite IH.
Qed.

Lemma listContents_length ordered options (items : list ListItem) :
  forall index, length (listContents ordered options index items) = length items.
Proof.
  induction items as [|item rest IH]; intros index; [reflexivity|].
  cbn [listContents].
  destruct (parseListItem ordered options index item) as [line index'].
  cbn [length]. now rewrite IH.
Qed.

Lemma parseListItem_inline ordered options index (item : ListItem)
      (tokens : list PhrasingToken) :
  itemInline item = Some tokens ->
  parseListItem ordered options index item
  = if ordered then
      (decimal (index + 1) ++ str ". " ++ itemText tokens, index + 1)
    else
      (match item_checked item with
       | Some checked =>
           match checkboxPrefix options with
           | Some prefix => prefix checked
           | None => BULLET :: str " "
           end
       | None => BULLET :: str " "
       end ++ itemText tokens, index).
Proof.
  unfold itemInline, parseListItem.
  destruct item as [checked [|first others]]; cbn; [discriminate|].
  destruct first as [| | | | | | | | | |text [[|child children]|]];
    try discriminate.
  intros [= <-]. cbn.
  destruct ordered; [reflexivity|].
  destruct checked; reflexivity.
Qed.

Lemma indexAfter_ordered options (items : list ListItem) :
  Forall (fun item => itemInline item <> None) items ->
  forall index, indexAfter true options index items = index + length items.
Proof.
  induction 1 as [|item rest Hitem _ IH]; intros index; cbn [indexAfter length].
  - lia.
  - destruct (itemInline item) as [tokens|] eqn:E; [|now elim Hitem].
    rewrite (parseListItem_inline true options index item tokens E).
    cbn [snd]. rewrite IH. lia.
Qed.

(** C10. Take a list item whose first child is missing, or is not a text
    token, or is a text token without inline tokens.  Its line is the text
    of the first child as it is (the empty string when there is no first
    child or when the child has no text), without marker, and the counter is
    left as it was.  So the lines of the other items of the list are those
    they have in the list without this item; and in an ordered list whose
    items before it all have their number, the item after it gets the next
    number. *)
Theorem degenerate_item_line :
  forall ordered options (item : ListItem),
    match item_tokens item with
    | [] => True
    | first :: _ =>
        type first <> "text"%string
        \/ exists text,
            first = TextBlock text None \/ first = TextBlock text (Some [])
    end ->
    let line := match item_tokens item with
                | [] => []
                | first :: _ =>
                    match text_of first with
                    | Some text => text
                    | None => []
                    end
                end in
    (forall index, parseListItem ordered options index item = (line, index))
    /\ (forall index pre post,
           let others := listContents ordered options index (pre ++ post) in
           listContents ordered options index (pre ++ item :: post)
           = firstn (length pre) others ++ line :: skipn (length pre) others)
    /\ (forall pre next post tokens,
           Forall (fun item' => itemInline item' <> None) pre ->
           itemInline next = Some tokens ->
           nth_error
             (listContents true options 0 (pre ++ item :: next :: post))
             (S (length pre))
           = Some (decimal (length pre + 1) ++ str ". " ++ itemText tokens)).
Proof.
  intros ordered options item Hitem line.
  assert (Hline : forall ordered' index,
             parseListItem ordered' options index item = (line, index)).
  { intros ordered' index. subst line. unfold parseListItem.
    destruct item as [checked [|first others]]; cbn in *; [reflexivity|].
    destruct first as [| | | | | | | | | |text inline]; cbn;
      rewrite ?or_else_empty; try reflexivity.
    destruct Hitem as [Hkind|[text' [H|H]]];
      [now elim Hkind| |]; injection H as -> ->; reflexivity. }
  split; [apply Hline|]. split.
  - intros index pre post others. subst others.
    rewrite !listContents_app.
    rewrite firstn_app, skipn_app, listContents_length.
    rewrite Nat.sub_diag, firstn_all2, skipn_all2
      by (rewrite listContents_length; lia).
    cbn [firstn skipn listContents]. rewrite Hline.
    now rewrite !app_nil_r.
  - intros pre next post tokens Hpre Hnext.
    rewrite listContents_app, indexAfter_ordered by assumption.
    cbn [listContents]. rewrite Hline.
    rewrite (parseListItem_inline true options _ next tokens Hnext).
    rewrite nth_error_app2 by (rewrite listContents_length; lia).
    rewrite listContents_length.
    replace (S (length pre) - length pre) with 1 by lia.
    reflexivity.
Qed.

Lemma degenerate_item_line_witness :
  listContents true noListOptions 0
    [ mkListItem None [TextBlock (str "a") (Some [txt (str "a")])];
      mkListItem None [Code (str "x")];
      mkListItem None [TextBlock (str "b") (Some [txt (str "b")])] ]
  = [str "1. a"; str "x"; str "2. b"].
Proof.
  assert (Hkind : type (Code (str "x")) <> "text"%string) by discriminate.
  pose proof (degenerate_item_line true noListOptions
                (mkListItem None [Code (str "x")])
                (or_introl Hkind)) as [_ [H _]].
  exact (H 0
           [mkListItem None [TextBlock (str "a") (Some [txt (str "a")])]]
           [mkListItem None [TextBlock (str "b") (Some [txt (str "b")])]]).
Defined.

Lemma listContents_lines ordered options (items : list ListItem) :
  Forall (fun item => itemInline item <> None) items ->
  forall index start,
    (ordered = true -> start = index + 1) ->
    listContents ordered options index items
    = map (markedLine ordered options) (combine (seq start (length items)) items).
Proof.
  induction 1 as [|item rest Hitem _ IH]; intros index start Hstart;
    [reflexivity|].
  cbn [listContents length seq combine map].
  destruct (itemInline item) as [tokens|] eqn:E; [|now elim Hitem].
  rewrite (parseListItem_inline ordered options index item tokens E).
  unfold markedLine at 1. rewrite E. unfold itemText. rewrite join_empty_sep.
  destruct ordered.
  - rewrite (Hstart eq_refl), <- !app_assoc. f_equal.
    apply IH. intros _. lia.
  - f_equal. apply IH. discriminate.
Qed.

(** C6, amended. A list all of whose items start with a text token that has
    inline tokens gives exactly one section; its text is the newline-joined
    item lines, capped by the section constructor.  In an ordered list the
    line of the item at position [n], counted from 1, is [n], a dot, a space
    and the item text.  In an unordered list the line of an item with a
    checked state is the checkbox prefix of the options applied to that
    state (the bullet and a space when the options give none) followed by
    the item text, and the line of any other item is the bullet, a space and
    the item text.  The item text is the rendering of the inline tokens of
    the first child, images left out, concatenated in order. *)
Theorem list_item_lines :
  forall xml options ordered (items : list ListItem),
    Forall (fun item => itemInline item <> None) items ->
    parseToken xml (List ordered items) options
    = Ok [slack.section
            (join [LF]
               (map (fun entry : nat * ListItem =>
                       let (number, item) := entry in
                       (if ordered then decimal number ++ str ". "
                        else match item_checked item with
                             | Some checked =>
                                 match lists options with
                                 | Some listOptions =>
                                     match checkboxPrefix listOptions with
                                     | Some prefix => prefix checked
                                     | None => BULLET :: str " "
                                     end
                                 | None => BULLET :: str " "
                                 end
                             | None => BULLET :: str " "
                             end)
                         ++ match itemInline item with
                            | Some tokens =>
                                concat
                                  (map parseMrkdwn
                                       (filter (fun child => negb (isImage child))
                                               tokens))
                            | None => []
                            end)
                    (combine (seq 1 (length items)) items)))].
Proof.
  intros xml options ordered items Hitems.
  unfold parseToken, parseList.
  rewrite (listContents_lines ordered _ items Hitems 0 1) by reflexivity.
  unfold markedLine.
  destruct (lists options) as [listOptions|]; reflexivity.
Qed.

Lemma list_item_lines_witness :
  parseToken noImg
    (List false
       [ mkListItem (Some true)
           [TextBlock (str "c") (Some [txt (str "c"); Image (str "u") None []])];
         mkListItem None [TextBlock (str "d") (Some [Em [txt (str "d")]])] ])
    (mkParsingOptions
       (Some (mkListOptions
                (Some (fun checked : bool =>
                         if checked then str "[x] " else str "[ ] ")))))
  = Ok [SectionBlock (str "[x] c" ++ LF :: BULLET :: str " _d_")].
Proof.
  apply (list_item_lines noImg
           (mkParsingOptions
              (Some (mkListOptions
                       (Some (fun checked : bool =>
                                if checked then str "[x] " else str "[ ] ")))))
           false
           [ mkListItem (Some true)
               [TextBlock (str "c") (Some [txt (str "c"); Image (str "u") None []])];
             mkListItem None [TextBlock (str "d") (Some [Em [txt (str "d")]])] ]).
  repeat constructor; discriminate.
Defined.

(** C6, as stated, fails: in the ordered list whose first item starts with a
    code block and whose second item is the text b, the first line is the
    code without a number and the second item gets the number 1; the text
    is not made of a line numbered 1 and a line numbered 2. *)
Lemma list_item_lines_counterexample :
  parseBlocks noImg
    [List true
       [ mkListItem None [Code (str "x")];
         mkListItem None [TextBlock (str "b") (Some [txt (str "b")])] ]]
    noOptions
  = Ok [SectionBlock (str "x" ++ LF :: str "1. b")]
  /\ ~ exists text1 text2 : jsstring,
         parseBlocks noImg
           [List true
              [ mkListItem None [Code (str "x")];
                mkListItem None [TextBlock (str "b") (Some [txt (str "b")])] ]]
           noOptions
         = Ok [slack.section
                 (join [LF] [ decimal 1 ++ str ". " ++ text1;
                              decimal 2 ++ str ". " ++ text2 ])].
Proof.
  split; [reflexivity|].
  intros [text1 [text2 H]].
  apply (f_equal (fun r => match r with
                           | Ok (SectionBlock (c :: _) :: _) => c
                           | _ => 0%N
                           end)) in H.
  cbn in H. discriminate H.
Qed.

(** ** The caps that hold *)

Lemma section_withinCaps (text : jsstring) : withinCaps (slack.section text).
Proof. split; [exact I|apply slice0_length]. Qed.

Lemma header_withinCaps (text : jsstring) : withinCaps (slack.header text).
Proof. split; [apply slice0_length|exact I]. Qed.

Lemma image_withinCaps url (altText : jsstring) (title : option jsstring) :
  withinCaps (slack.image url altText title).
Proof.
  split; [|exact I]. split; [apply slice0_length|].
  destruct title as [t|]; [|exact I].
  destruct (truthy t); [apply slice0_length|exact I].
Qed.

Lemma table_withinCaps (rows : list (list Cell)) : withinCaps (slack.table rows).
Proof.
  split; [|exact I]. split.
  - rewrite length_map. apply slice0_length.
  - apply Forall_map, Forall_forall. intros row _. apply slice0_length.
Qed.

Lemma divider_withinCaps : withinCaps slack.divider.
Proof. split; exact I. Qed.

Lemma lastOf_split {A : Type} (l : list A) (x : A) :
  lastOf l = Some x -> l = removelast l ++ [x].
Proof.
  intros H.
  assert (Hne : l <> []) by (intros ->; discriminate H).
  destruct (exists_last Hne) as [l' [x' ->]].
  rewrite lastOf_app_one in H. injection H as ->.
  now rewrite removelast_last.
Qed.

Lemma addMrkdwn_otherCaps (content : jsstring) (acc : list KnownBlock) :
  Forall withinOtherCaps acc -> Forall withinOtherCaps (addMrkdwn content acc).
Proof.
  intros Hacc. unfold addMrkdwn.
  assert (Hpush : Forall withinOtherCaps (acc ++ [slack.section content])).
  { apply Forall_app. split; [assumption|]. now repeat constructor. }
  destruct (lastOf acc) as [[text| | | |]|] eqn:E; try exact Hpush.
  unfold setLast. apply Forall_app. split; [|now repeat constructor].
  rewrite (lastOf_split acc _ E) in Hacc.
  now apply Forall_app in Hacc.
Qed.

Lemma parseParagraph_otherCaps (tokens : list PhrasingToken) :
  Forall withinOtherCaps (parseParagraph tokens).
Proof.
  unfold parseParagraph.
  assert (H : forall acc,
             Forall withinOtherCaps acc ->
             Forall withinOtherCaps (fold_left paragraphReducer tokens acc)).
  { induction tokens as [|child rest IH]; intros acc Hacc; [assumption|].
    cbn [fold_left]. apply IH.
    destruct child; cbn [parsePhrasingContent];
      try (now apply addMrkdwn_otherCaps).
    apply Forall_app. split; [assumption|].
    constructor; [|constructor]. apply image_withinCaps. }
  apply H. constructor.
Qed.

Lemma quoteBlock_otherCaps (block : KnownBlock) :
  withinOtherCaps block -> withinOtherCaps (quoteBlock block).
Proof.
  destruct block; cbn [quoteBlock]; try (intros H; exact H).
  intros _. now destruct (includesLF text).
Qed.

Lemma parseBlockquote_otherCaps (tokens : list Token) :
  Forall withinOtherCaps (parseBlockquote tokens).
Proof.
  induction tokens as [|child rest IH]; [constructor|].
  rewrite parseBlockquote_cons. apply Forall_app. split; [|assumption].
  destruct (isParagraph child); [|constructor].
  apply Forall_map.
  eapply Forall_impl; [|apply parseParagraph_otherCaps].
  apply quoteBlock_otherCaps.
Qed.

Lemma mapM_imgBlock_caps (nodes : list XmlNode) (blocks : list KnownBlock) :
  mapM imgBlock nodes = Ok blocks -> Forall withinCaps blocks.
Proof.
  revert blocks.
  induction nodes as [|node rest IH]; intros blocks; cbn [mapM].
  - intros [= <-]. constructor.
  - unfold imgBlock at 1.
    destruct (match attr_alt node with
              | Some alt => if truthy alt then Some alt else attr_src node
              | None => attr_src node
              end) as [alt|]; cbn [bind]; [|discriminate].
    destruct (mapM imgBlock rest) as [blocks'|]; cbn [bind]; [|discriminate].
    intros [= <-]. constructor; [apply image_withinCaps|now apply IH].
Qed.

Lemma withinCaps_other (blocks : list KnownBlock) :
  Forall withinCaps blocks -> Forall withinOtherCaps blocks.
Proof. apply Forall_impl. now intros block [H _]. Qed.

(** Whatever the kind of the token, header, image and table blocks are
    within their caps. *)
Lemma parseToken_otherCaps xml options (token : Token) (blocks : list KnownBlock) :
  parseToken xml token options = Ok blocks -> Forall withinOtherCaps blocks.
Proof.
  destruct token; cbn [parseToken]; try (intros [= <-]).
  - apply withinCaps_other. one_block header_withinCaps.
  - apply parseParagraph_otherCaps.
  - apply withinCaps_other. one_block section_withinCaps.
  - apply parseBlockquote_otherCaps.
  - apply withinCaps_other. one_block section_withinCaps.
  - apply withinCaps_other. one_block table_withinCaps.
  - apply withinCaps_other. one_block divider_withinCaps.
  - unfold parseHTML.
    destruct (xml raw) as [[|[[|]|src alt]|nodes]|]; cbn [bind];
      try discriminate; try (intros [= <-]; constructor);
      intros H; apply withinCaps_other; now apply mapM_imgBlock_caps in H.
  - constructor.
  - constructor.
  - constructor.
Qed.

Lemma parseBlocks_otherCaps xml options (tokens : list Token) :
  forall blocks,
    parseBlocks xml tokens options = Ok blocks ->
    Forall withinOtherCaps blocks.
Proof.
  unfold parseBlocks.
  induction tokens as [|token rest IH]; intros blocks; cbn [flatMapM].
  - intros [= <-]. constructor.
  - destruct (parseToken xml token options) as [first|] eqn:E; cbn [bind];
      [|discriminate].
    destruct (flatMapM (fun token' => parseToken xml token' options) rest)
      as [others|]; cbn [bind]; [|discriminate].
    intros [= <-]. apply Forall_app. split.
    + now apply (parseToken_otherCaps xml options token).
    + now apply IH.
Qed.

(** Outside paragraphs and block quotes the section cap holds as well. *)
Lemma parseToken_caps xml options (token : Token) (blocks : list KnownBlock) :
  type token <> "paragraph"%string ->
  type token <> "blockquote"%string ->
  parseToken xml token options = Ok blocks ->
  Forall withinCaps blocks.
Proof.
  intros Hpara Hquote.
  destruct token; cbn [parseToken]; try (intros [= <-]);
    try (now elim Hpara); try (now elim Hquote); try (constructor; fail).
  - one_block header_withinCaps.
  - one_block section_withinCaps.
  - one_block section_withinCaps.
  - one_block table_withinCaps.
  - one_block divider_withinCaps.
  - unfold parseHTML.
    destruct (xml raw) as [[|[[|]|src alt]|nodes]|]; cbn [bind];
      try discriminate; try (intros [= <-]; constructor);
      intros H; now apply mapM_imgBlock_caps in H.
Qed.

(** A paragraph with a single inline child that is not an image carries the
    first 3000 characters of the rendering of that child. *)
Lemma single_child_section xml options text (child : PhrasingToken) :
  isImage child = false ->
  parseBlocks xml [Paragraph text [child]] options
  = Ok [SectionBlock (firstn 3000 (parseMrkdwn child))].
Proof. destruct child; try discriminate; reflexivity. Qed.

(** * Further properties of the converter *)

(** ** Paragraphs, read from left to right *)

Lemma fold_blocksFrom (tokens : list PhrasingToken) :
  (forall text,
      fold_left paragraphReducer tokens [SectionBlock text]
      = blocksFrom (Some text) tokens)
  /\ fold_left paragraphReducer tokens [] = blocksFrom None tokens.
Proof.
  induction tokens as [|child rest [IHopen IHclosed]]; [now split|].
  assert (Himage : forall href title text acc,
             fold_left paragraphReducer rest
               (acc ++ [slack.image (Some href)
                          (or_else text (opt_or_else title href)) title])
             = acc ++ slack.image (Some href)
                        (or_else text (opt_or_else title href)) title
                   :: blocksFrom None rest).
  { intros href title text acc.
    rewrite fold_after_block, parseParagraph_after by reflexivity.
    unfold parseParagraph. now rewrite IHclosed. }
  split.
  - intros text. cbn [fold_left]. rewrite paragraphReducer_eq.
    destruct child; cbn [parsePhrasingContent blocksFrom];
      try (apply IHopen).
    apply (Himage href title text0 [SectionBlock text]).
  - cbn [fold_left]. rewrite paragraphReducer_eq.
    destruct child; cbn [parsePhrasingContent blocksFrom];
      try (apply IHopen).
    apply (Himage href title text []).
Qed.

Lemma parseParagraph_blocksFrom (tokens : list PhrasingToken) :
  parseParagraph tokens = blocksFrom None tokens.
Proof. apply fold_blocksFrom. Qed.

Lemma blocksFrom_cons_image open href title text (rest : list PhrasingToken) :
  blocksFrom open (Image href title text :: rest)
  = match open with
    | Some shown => [SectionBlock shown]
    | None => []
    end
      ++ slack.image (Some href) (or_else text (opt_or_else title href)) title
      :: blocksFrom None rest.
Proof. reflexivity. Qed.

Lemma blocksFrom_cons_other open (child : PhrasingToken)
      (rest : list PhrasingToken) :
  isImage child = false ->
  blocksFrom open (child :: rest)
  = blocksFrom
      (Some match open with
            | Some text => text ++ parseMrkdwn child
            | None => slice0 slack.MAX_TEXT_LENGTH (parseMrkdwn child)
            end)
      rest.
Proof. destruct child; try discriminate; reflexivity. Qed.

(** Induction on the left-to-right reading: the end of the paragraph, an
    image, any other child. *)
Lemma blocksFrom_ind (P : option jsstring -> list PhrasingToken ->
                          list KnownBlock -> Prop) :
  (forall open,
      P open [] match open with
                | Some text => [SectionBlock text]
                | None => []
                end) ->
  (forall open href title text rest,
      P None rest (blocksFrom None rest) ->
      P open (Image href title text :: rest)
        (match open with
         | Some shown => [SectionBlock shown]
         | None => []
         end
           ++ slack.image (Some href) (or_else text (opt_or_else title href))
                title
           :: blocksFrom None rest)) ->
  (forall open child rest,
      isImage child = false ->
      let open' := match open with
                   | Some text => text ++ parseMrkdwn child
                   | None => slice0 slack.MAX_TEXT_LENGTH (parseMrkdwn child)
                   end in
      P (Some open') rest (blocksFrom (Some open') rest) ->
      P open (child :: rest) (blocksFrom (Some open') rest)) ->
  forall tokens open, P open tokens (blocksFrom open tokens).
Proof.
  intros Hnil Himage Hother.
  induction tokens as [|child rest IH]; intros open; [apply Hnil|].
  destruct (isImage child) eqn:E.
  - destruct child; try discriminate.
    rewrite blocksFrom_cons_image. apply Himage, IH.
  - rewrite blocksFrom_cons_other by assumption.
    now apply Hother.
Qed.

Lemma noAdjacentSections_after_image (flush : list KnownBlock)
      (block : KnownBlock) (rest : list KnownBlock) :
  isImageBlock block = true ->
  length flush <= 1 ->
  noAdjacentSections rest ->
  noAdjacentSections (flush ++ block :: rest).
Proof.
  intros Hblock Hflush Hrest.
  destruct block; try discriminate.
  destruct flush as [|[] [|? ?]]; cbn in *; try assumption; lia.
Qed.

(** X1. The blocks of a paragraph are sections and images only, and a
    section never follows a section: two sections are always separated by
    an image. *)
Theorem paragraph_blocks_alternate :
  forall tokens : list PhrasingToken,
    Forall (fun block => isSectionBlock block || isImageBlock block = true)
           (parseParagraph tokens)
    /\ noAdjacentSections (parseParagraph tokens).
Proof.
  intros tokens. rewrite parseParagraph_blocksFrom.
  apply (blocksFrom_ind
           (fun _ _ out =>
              Forall (fun block =>
                        isSectionBlock block || isImageBlock block = true) out
              /\ noAdjacentSections out)).
  - intros [text|]; split; cbn; auto.
  - intros open href title text rest [Hkinds Hadjacent]. split.
    + apply Forall_app. split; [destruct open; auto|].
      constructor; [reflexivity|assumption].
    + apply noAdjacentSections_after_image;
        [reflexivity|destruct open; cbn; lia|assumption].
  - intros open child rest _ open' H. exact H.
Qed.

Lemma blocksFrom_open_nonempty (tokens : list PhrasingToken) :
  forall text, blocksFrom (Some text) tokens <> [].
Proof.
  induction tokens as [|child rest IH]; intros text; [discriminate|].
  destruct (isImage child) eqn:E.
  - destruct child; discriminate.
  - rewrite blocksFrom_cons_other by assumption. apply IH.
Qed.

(** X2. A paragraph gives as many image blocks as it has image children, at
    most one section more than that, and no more blocks than children; it
    gives no block at all exactly when it has no child. *)
Theorem paragraph_block_counts :
  forall tokens : list PhrasingToken,
    length (filter isImageBlock (parseParagraph tokens))
    = length (filter isImage tokens)
    /\ length (filter isSectionBlock (parseParagraph tokens))
       <= S (length (filter isImage tokens))
    /\ length (parseParagraph tokens) <= length tokens
    /\ (parseParagraph tokens = [] <-> tokens = []).
Proof.
  intros tokens. rewrite parseParagraph_blocksFrom.
  assert (H : forall open,
             length (filter isImageBlock (blocksFrom open tokens))
             = length (filter isImage tokens)
             /\ length (filter isSectionBlock (blocksFrom open tokens))
                <= S (length (filter isImage tokens))
             /\ length (blocksFrom open tokens)
                <= length (blocksFrom open []) + length tokens).
  { apply (blocksFrom_ind
             (fun open tokens out =>
                length (filter isImageBlock out)
                = length (filter isImage tokens)
                /\ length (filter isSectionBlock out)
                   <= S (length (filter isImage tokens))
                /\ length out <= length (blocksFrom open []) + length tokens)).
    - intros [text|]; cbn; lia.
    - intros open href title text rest (Himages & Hsections & Hlength).
      rewrite !filter_app, !length_app. cbn in *.
      destruct open; cbn; lia.
    - intros open child rest Hchild open' (Himages & Hsections & Hlength).
      cbn [filter length]. rewrite Hchild.
      destruct open; cbn in *; lia. }
  destruct (H None) as (Himages & Hsections & Hlength).
  repeat split; try assumption.
  - intros Hout. destruct tokens as [|child rest]; [reflexivity|].
    exfalso. destruct (isImage child) eqn:E.
    + destruct child; discriminate.
    + rewrite blocksFrom_cons_other in Hout by assumption.
      now apply blocksFrom_open_nonempty in Hout.
  - now intros ->.
Qed.

Lemma blocksFrom_split (before : list PhrasingToken) href title text
      (after : list PhrasingToken) :
  forall open,
    blocksFrom open (before ++ Image href title text :: after)
    = blocksFrom open before
        ++ slack.image (Some href) (or_else text (opt_or_else title href)) title
        :: blocksFrom None after.
Proof.
  induction before as [|child rest IH]; intros open; [reflexivity|].
  cbn [app]. destruct (isImage child) eqn:E.
  - destruct child; try discriminate.
    rewrite !blocksFrom_cons_image, IH, <- app_assoc. reflexivity.
  - rewrite !blocksFrom_cons_other by assumption. apply IH.
Qed.

(** X3. An image cuts a paragraph in two: the blocks of the paragraph are
    the blocks of the children before the image, the image block, and the
    blocks of the children after it, each part converted on its own. *)
Theorem paragraph_splits_at_image :
  forall (before after : list PhrasingToken) href title text,
    parseParagraph (before ++ Image href title text :: after)
    = parseParagraph before
        ++ slack.image (Some href) (or_else text (opt_or_else title href)) title
        :: parseParagraph after.
Proof.
  intros. rewrite !parseParagraph_blocksFrom. apply blocksFrom_split.
Qed.

Lemma slice0_nonempty {A : Type} (n : nat) (s : list A) :
  s <> [] -> slice0 (S n) s <> [].
Proof. destruct s; [congruence|discriminate]. Qed.

Lemma or_else_nonempty (a b : jsstring) : b <> [] -> or_else a b <> [].
Proof. destruct a; [trivial|discriminate]. Qed.

Lemma image_fields url (altText : jsstring) (title : option jsstring) :
  exists alt_text shown,
    slack.image url altText title = ImageBlock url alt_text shown
    /\ shown <> Some []
    /\ (altText <> [] -> alt_text <> []).
Proof.
  eexists; eexists. split; [reflexivity|]. split.
  - destruct title as [[|c t]|]; cbn; discriminate.
  - apply slice0_nonempty.
Qed.

(** X4. Every image block of a paragraph is the block built from one of
    the image children of the paragraph: its url is the href of that token,
    its title is never the empty string, and its alt text is not empty
    unless the href is. *)
Theorem paragraph_image_fields :
  forall (tokens : list PhrasingToken) url alt_text title,
    In (ImageBlock url alt_text title) (parseParagraph tokens) ->
    exists href title' text,
      In (Image href title' text) tokens
      /\ ImageBlock url alt_text title
         = slack.image (Some href) (or_else text (opt_or_else title' href))
                       title'
      /\ url = Some href
      /\ title <> Some []
      /\ (href <> [] -> alt_text <> []).
Proof.
  intros tokens url alt_text title. rewrite parseParagraph_blocksFrom.
  apply (blocksFrom_ind
           (fun _ tokens out =>
              In (ImageBlock url alt_text title) out ->
              exists href title' text,
                In (Image href title' text) tokens
                /\ ImageBlock url alt_text title
                   = slack.image (Some href)
                       (or_else text (opt_or_else title' href)) title'
                /\ url = Some href /\ title <> Some []
                /\ (href <> [] -> alt_text <> []))).
  - intros [text|] Hin; cbn in Hin; [destruct Hin as [H|[]]|destruct Hin];
      discriminate H.
  - intros open href title' text rest IH Hin.
    apply in_app_or in Hin. destruct Hin as [Hin|[Hin|Hin]].
    + destruct open; cbn in Hin; [destruct Hin as [H|[]]|destruct Hin];
        discriminate H.
    + exists href, title', text.
      split; [now left|]. split; [now symmetry|].
      destruct (image_fields (Some href)
                  (or_else text (opt_or_else title' href)) title')
        as (alt' & shown & E & Hshown & Halt).
      rewrite E in Hin. injection Hin as <- <- <-.
      split; [reflexivity|]. split; [assumption|].
      intros Hhref. apply Halt, or_else_nonempty.
      destruct title' as [t|]; cbn; [now apply or_else_nonempty|assumption].
    + destruct (IH Hin) as (href' & title'' & text' & Htoken & H).
      exists href', title'', text'. split; [now right|exact H].
  - intros open child rest _ open' IH Hin.
    destruct (IH Hin) as (href' & title'' & text' & Htoken & H).
    exists href', title'', text'. split; [now right|exact H].
Qed.

Lemma paragraph_image_fields_witness :
  exists href title' text,
    In (Image href title' text) [txt (str "a"); Image (str "u") None []]
    /\ ImageBlock (Some (str "u")) (str "u") None
       = slack.image (Some href) (or_else text (opt_or_else title' href))
                     title'
    /\ Some (str "u") = Some href
    /\ (None : option jsstring) <> Some []
    /\ (href <> [] -> str "u" <> []).
Proof.
  apply (paragraph_image_fields
           [txt (str "a"); Image (str "u") None []]
           (Some (str "u")) (str "u") None).
  right. left. reflexivity.
Defined.

(** ** Lists: numbering and what a line depends on *)

Lemma parseListItem_ordered_tokens options options' index
      (item item' : ListItem) :
  item_tokens item = item_tokens item' ->
  parseListItem true options index item
  = parseListItem true options' index item'.
Proof.
  destruct item as [checked tokens], item' as [checked' tokens'].
  cbn [item_tokens]. intros <-. unfold parseListItem. cbn [item_tokens].
  destruct (nth_error tokens 0) as [[| | | | | | | | | |text [[|c cs]|]]|];
    reflexivity.
Qed.

Lemma listContents_ordered_tokens options options' (items : list ListItem) :
  forall (items' : list ListItem) index,
    map item_tokens items = map item_tokens items' ->
    listContents true options index items
    = listContents true options' index items'.
Proof.
  induction items as [|item rest IH]; intros [|item' rest'] index Hmap;
    try discriminate; [reflexivity|].
  cbn [map] in Hmap. injection Hmap as Hitem Hrest.
  cbn [listContents].
  rewrite (parseListItem_ordered_tokens options options' index item item' Hitem).
  destruct (parseListItem true options' index item') as [line index'].
  f_equal. now apply IH.
Qed.

Lemma ordered_contents_any_options xml options options'
      (items : list ListItem) :
  parseToken xml (List true items) options
  = parseToken xml (List true items) options'.
Proof.
  cbn [parseToken]. unfold parseList.
  now rewrite (listContents_ordered_tokens _
                 (match lists options' with
                  | Some o => o
                  | None => noListOptions
                  end) items items 0 eq_refl).
Qed.

(** X5. An ordered list never consults the options nor the checked state of
    its items: two ordered lists whose items have the same children give
    the same section, whatever the options and the checked states. *)
Theorem ordered_list_ignores_options :
  forall xml options options' (items items' : list ListItem),
    map item_tokens items = map item_tokens items' ->
    parseToken xml (List true items) options
    = parseToken xml (List true items') options'.
Proof.
  intros xml options options' items items' Hmap.
  cbn [parseToken]. unfold parseList.
  now rewrite (listContents_ordered_tokens _
                 (match lists options' with
                  | Some o => o
                  | None => noListOptions
                  end) items items' 0 Hmap).
Qed.

Lemma ordered_list_ignores_options_witness :
  parseToken noImg
    (List true
       [mkListItem (Some true) [TextBlock (str "a") (Some [txt (str "a")])]])
    (mkParsingOptions (Some (mkListOptions (Some (fun _ => str "[x] ")))))
  = parseToken noImg
      (List true
         [mkListItem None [TextBlock (str "a") (Some [txt (str "a")])]])
      noOptions.
Proof.
  apply (ordered_list_ignores_options noImg).
  reflexivity.
Defined.

Lemma parseListItem_no_inline ordered options index (item : ListItem) :
  itemInline item = None ->
  snd (parseListItem ordered options index item) = index.
Proof.
  unfold itemInline, parseListItem.
  destruct item as [checked [|first others]]; cbn; [reflexivity|].
  destruct first as [| | | | | | | | | |text [[|child children]|]];
    try reflexivity.
  discriminate.
Qed.

Lemma indexAfter_count options (items : list ListItem) :
  forall index,
    indexAfter true options index items
    = index + length (filter hasInline items).
Proof.
  induction items as [|item rest IH]; intros index; cbn [indexAfter filter].
  - cbn. lia.
  - unfold hasInline at 1.
    destruct (itemInline item) as [tokens|] eqn:E.
    + rewrite (parseListItem_inline true options index item tokens E).
      cbn [snd length]. rewrite IH. lia.
    + rewrite (parseListItem_no_inline true options index item E).
      apply IH.
Qed.

(** X6. In an ordered list, whatever its other items are, an item whose
    first child is a text token with inline tokens gets the number of such
    items up to and including itself: the items without inline text are not
    counted. *)
Theorem ordered_item_number :
  forall options (before after : list ListItem) (item : ListItem) tokens,
    itemInline item = Some tokens ->
    nth_error (listContents true options 0 (before ++ item :: after))
              (length before)
    = Some (decimal (S (length (filter hasInline before)))
              ++ str ". " ++ itemText tokens).
Proof.
  intros options before after item tokens Hitem.
  rewrite listContents_app, indexAfter_count.
  rewrite nth_error_app2 by (rewrite listContents_length; lia).
  rewrite listContents_length, Nat.sub_diag.
  cbn [listContents].
  rewrite (parseListItem_inline true options _ item tokens Hitem).
  cbn [nth_error]. do 3 f_equal. lia.
Qed.

Lemma ordered_item_number_witness :
  nth_error
    (listContents true noListOptions 0
       ([ mkListItem None [];
          mkListItem None [TextBlock (str "a") (Some [txt (str "a")])];
          mkListItem None [Hr] ]
          ++ mkListItem None [TextBlock (str "b") (Some [txt (str "b")])]
          :: []))
    3
  = Some (str "2. b").
Proof.
  apply (ordered_item_number noListOptions
           [ mkListItem None [];
             mkListItem None [TextBlock (str "a") (Some [txt (str "a")])];
             mkListItem None [Hr] ]
           []
           (mkListItem None [TextBlock (str "b") (Some [txt (str "b")])])
           [txt (str "b")]).
  reflexivity.
Defined.

(** X7. Among the list items whose first child is a text token with at
    least one inline token, the line of an item is read off the inline
    tokens of that child that are not images, and off nothing else of the
    item but its checked state: two such items with the same checked state
    and the same inline tokens, images aside, have the same line, whatever
    the text field of the first child, the images among its inline tokens
    and the further children of the item, nested lists included. *)
Theorem list_item_reads_first_child_only :
  forall ordered options index checked text text'
         (tokens tokens' : list PhrasingToken) (others others' : list Token),
    tokens <> [] ->
    tokens' <> [] ->
    filter (fun child => negb (isImage child)) tokens
    = filter (fun child => negb (isImage child)) tokens' ->
    parseListItem ordered options index
      (mkListItem checked (TextBlock text (Some tokens) :: others))
    = parseListItem ordered options index
        (mkListItem checked (TextBlock text' (Some tokens') :: others')).
Proof.
  intros ordered options index checked text text' tokens tokens'
         others others' Htokens Htokens' Hfilter.
  destruct tokens as [|c cs]; [now elim Htokens|].
  destruct tokens' as [|c' cs']; [now elim Htokens'|].
  unfold parseListItem. cbn [item_tokens nth_error item_checked].
  unfold itemText. now rewrite Hfilter.
Qed.

Lemma list_item_reads_first_child_only_witness :
  parseListItem false noListOptions 0
    (mkListItem None
       [ TextBlock (str "a") (Some [txt (str "a"); Image (str "u") None []]);
         List false [mkListItem None [TextBlock (str "n") (Some [txt (str "n")])]] ])
  = parseListItem false noListOptions 0
      (mkListItem None [TextBlock (str "a") (Some [txt (str "a")])]).
Proof.
  apply list_item_reads_first_child_only.
  - discriminate.
  - discriminate.
  - reflexivity.
Defined.

(** ** Table cells *)

Lemma cellElements_flags (child : PhrasingToken) :
  Forall (fun run => match run with
                     | RichTextText _ (Some style) => flagCount style = 1
                     | _ => True
                     end)
         (cellElements child).
Proof. destruct child; cbn; repeat constructor. Qed.

(** X8. A table cell that comes out as rich text holds at least one run, is
    not a single plain run, and each of its styled runs carries exactly one
    of the four style flags. *)
Theorem rich_cell_runs :
  forall (cell : TableCell) (runs : list RichTextElement),
    parseTableCellToRichText cell = RichTextBlock runs ->
    runs <> []
    /\ (forall text, runs <> [RichTextText text None])
    /\ Forall (fun run => match run with
                          | RichTextText _ (Some style) => flagCount style = 1
                          | _ => True
                          end) runs.
Proof.
  intros cell runs. unfold parseTableCellToRichText.
  assert (Hflags : Forall (fun run => match run with
                                      | RichTextText _ (Some style) =>
                                          flagCount style = 1
                                      | _ => True
                                      end)
                          (flat_map cellElements (cell_tokens cell))).
  { induction (cell_tokens cell) as [|child rest IH]; [constructor|].
    cbn [flat_map]. apply Forall_app. split; [apply cellElements_flags|exact IH]. }
  destruct (flat_map cellElements (cell_tokens cell)) as [|run rest];
    [discriminate|].
  destruct run as [text [style|]|text url];
    try (destruct rest as [|run' rest]; try discriminate);
    intros [= <-]; repeat split; try discriminate; assumption.
Qed.

Lemma rich_cell_runs_witness :
  [RichTextText (str "Bold") (Some styleBold)] <> []
  /\ (forall text,
         [RichTextText (str "Bold") (Some styleBold)]
         <> [RichTextText text None])
  /\ Forall (fun run => match run with
                        | RichTextText _ (Some style) => flagCount style = 1
                        | _ => True
                        end)
            [RichTextText (str "Bold") (Some styleBold)].
Proof.
  apply (rich_cell_runs (mkTableCell [Strong [txt (str "Bold")]])).
  reflexivity.
Defined.

Lemma silent_children_no_run (children : list PhrasingToken) :
  Forall (fun other => isSilent other = true) children ->
  flat_map cellElements children = [].
Proof.
  induction 1 as [|other rest Hother _ IH]; [reflexivity|].
  cbn [flat_map]. rewrite IH.
  destruct other; try discriminate; reflexivity.
Qed.

(** X9. Line breaks, raw HTML and tokens of a kind the cell renderer has no
    case for leave no trace in a table cell: the cell is the same with and
    without them, and a cell made of such children only is the empty raw
    text. *)
Theorem silent_cell_children :
  forall (before after : list PhrasingToken) (child : PhrasingToken),
    isSilent child = true ->
    parseTableCellToRichText (mkTableCell (before ++ child :: after))
    = parseTableCellToRichText (mkTableCell (before ++ after))
    /\ (Forall (fun other => isSilent other = true) (before ++ after) ->
        parseTableCellToRichText (mkTableCell (before ++ child :: after))
        = RawTextElement []).
Proof.
  intros before after child Hchild.
  assert (E : flat_map cellElements (before ++ child :: after)
              = flat_map cellElements (before ++ after)).
  { rewrite !flat_map_app. cbn [flat_map].
    destruct child; try discriminate; reflexivity. }
  unfold parseTableCellToRichText. cbn [cell_tokens]. rewrite E.
  split; [reflexivity|].
  intros Hall.
  now rewrite (silent_children_no_run _ Hall).
Qed.

Lemma silent_cell_children_witness :
  parseTableCellToRichText
    (mkTableCell ([txt (str "a")] ++ Br :: [HTML (str "<b>")]))
  = parseTableCellToRichText
      (mkTableCell ([txt (str "a")] ++ [HTML (str "<b>")])).
Proof.
  apply (silent_cell_children [txt (str "a")] [HTML (str "<b>")] Br).
  reflexivity.
Defined.

(** ** Block constructors and code blocks *)

Lemma firstn_id_iff {A : Type} (n : nat) (l : list A) :
  firstn n l = l <-> length l <= n.
Proof.
  split.
  - intros H. rewrite <- H, length_firstn. lia.
  - apply firstn_all2.
Qed.

Lemma map_firstn_id {A : Type} (n : nat) (rows : list (list A)) :
  map (fun row => firstn n row) rows = rows
  <-> Forall (fun row => length row <= n) rows.
Proof.
  induction rows as [|row rest IH]; [now split|].
  cbn [map]. split.
  - intros [= Hrow Hrest].
    constructor; [now apply firstn_id_iff in Hrow|now apply IH].
  - intros Hrows. inversion Hrows as [|? ? Hrow Hrest]; subst.
    f_equal; [now apply firstn_id_iff|now apply IH].
Qed.

Lemma TableBlock_inj (rows rows' : list (list Cell)) :
  TableBlock rows = TableBlock rows' -> rows = rows'.
Proof. now intros [= H]. Qed.

(** X10. The constructors truncate and do nothing else: the text of a
    section or of a header is the given text exactly when that text is
    within the cap, and the rows of a table block are the given rows exactly
    when there are at most 100 of them, each of at most 20 cells. *)
Theorem constructors_exact_within_caps :
  (forall text,
      slack.section text = SectionBlock text <-> length text <= 3000)
  /\ (forall text,
         slack.header text = HeaderBlock text <-> length text <= 150)
  /\ (forall rows,
         slack.table rows = TableBlock rows
         <-> length rows <= 100 /\ Forall (fun row => length row <= 20) rows).
Proof.
  split; [|split].
  - intros text. unfold slack.section, slice0, slack.MAX_TEXT_LENGTH.
    rewrite <- firstn_id_iff.
    split; [now intros [= H]|now intros ->].
  - intros text. unfold slack.header, slice0, slack.MAX_HEADER_LENGTH.
    rewrite <- firstn_id_iff.
    split; [now intros [= H]|now intros ->].
  - intros rows.
    unfold slack.table, slice0, slack.MAX_TABLE_ROWS, slack.MAX_TABLE_COLUMNS.
    split.
    + intros H. apply TableBlock_inj in H.
      assert (Hlength : length rows <= 100).
      { pose proof (f_equal (@length _) H) as Hl.
        rewrite length_map, length_firstn in Hl. lia. }
      split; [assumption|].
      rewrite firstn_all2 in H by assumption.
      now apply map_firstn_id in H.
    + intros [Hlength Hrows].
      rewrite firstn_all2 by assumption. f_equal.
      now apply map_firstn_id.
Qed.

Lemma constructors_exact_within_caps_witness :
  slack.section (str "abc") = SectionBlock (str "abc").
Proof.
  apply (proj1 constructors_exact_within_caps (str "abc")).
  cbn. lia.
Defined.

(** X11. A code block keeps both fences as long as the code has at most
    2992 characters; from 2996 characters on, the section is the opening
    fence and the first 2996 characters of the code, and the closing fence
    is lost. *)
Theorem code_block_fences :
  forall text : jsstring,
    (length text <= 2992 ->
     parseCode text
     = SectionBlock (str "```" ++ [LF] ++ text ++ [LF] ++ str "```"))
    /\ (2996 <= length text ->
        parseCode text
        = SectionBlock (str "```" ++ [LF] ++ firstn 2996 text)).
Proof.
  intros text. unfold parseCode, slack.section, slice0. split.
  - intros Hshort. f_equal. apply firstn_all2.
    rewrite !length_app. cbn [length]. unfold slack.MAX_TEXT_LENGTH.
    change (length (str "```")) with 3. lia.
  - intros Hlong. f_equal.
    change (str "```" ++ [LF] ++ text ++ [LF] ++ str "```")
      with (96%N :: 96%N :: 96%N :: LF :: (text ++ [LF] ++ str "```")).
    change (str "```" ++ [LF] ++ firstn 2996 text)
      with (96%N :: 96%N :: 96%N :: LF :: firstn 2996 text).
    change slack.MAX_TEXT_LENGTH with (S (S (S (S 2996)))).
    rewrite !firstn_cons. do 4 f_equal.
    rewrite firstn_app.
    replace (2996 - length text) with 0 by lia.
    rewrite firstn_O. apply app_nil_r.
Qed.

Lemma code_block_fences_witness :
  parseCode (str "x") = SectionBlock (str "```" ++ [LF] ++ str "x" ++ [LF] ++ str "```").
Proof.
  apply (proj1 (code_block_fences (str "x"))).
  cbn. lia.
Defined.

(** ** Where the characters of a rendering come from *)

(** Induction on a token tree, with the property known of all children. *)
Lemma PhrasingToken_tree_ind (P : PhrasingToken -> Prop) :
  (forall href tokens, Forall P tokens -> P (Link href tokens)) ->
  (forall tokens, Forall P tokens -> P (Em tokens)) ->
  (forall tokens, Forall P tokens -> P (Strong tokens)) ->
  (forall tokens, Forall P tokens -> P (Del tokens)) ->
  P Br ->
  (forall href title text, P (Image href title text)) ->
  (forall raw text, P (Codespan raw text)) ->
  (forall raw text, P (Text raw text)) ->
  (forall raw, P (HTML raw)) ->
  (forall raw text, P (Escape raw text)) ->
  forall element, P element.
Proof.
  intros Hlink Hem Hstrong Hdel Hbr Himage Hcode Htext Hhtml Hescape.
  fix IH 1.
  assert (Hall : forall tokens, Forall P tokens).
  { fix IHs 1. intros [|child rest]; constructor; [apply IH|apply IHs]. }
  intros [href tokens|tokens|tokens|tokens| |href title text|raw text|raw text
         |raw|raw text].
  - apply Hlink, Hall.
  - apply Hem, Hall.
  - apply Hstrong, Hall.
  - apply Hdel, Hall.
  - apply Hbr.
  - apply Himage.
  - apply Hcode.
  - apply Htext.
  - apply Hhtml.
  - apply Hescape.
Qed.

Lemma count_children (c : code_unit) (tokens : list PhrasingToken) :
  Forall (fun child =>
            count_occ N.eq_dec (parseMrkdwn child) c
            = count_occ N.eq_dec (concat (literals child)) c
              + count_occ N.eq_dec (delimiters child) c)
         tokens ->
  count_occ N.eq_dec (concat (map parseMrkdwn tokens)) c
  = count_occ N.eq_dec (concat (flat_map literals tokens)) c
    + count_occ N.eq_dec (flat_map delimiters tokens) c.
Proof.
  induction 1 as [|child rest Hchild _ IH]; [reflexivity|].
  cbn [map concat flat_map].
  rewrite concat_app, !count_occ_app.
  unfold code_unit, jsstring in *. lia.
Qed.

(** A rendering holds the characters of the literals of the tree and the
    delimiters of its nodes, and no other. *)
Lemma count_parseMrkdwn (c : code_unit) (element : PhrasingToken) :
  count_occ N.eq_dec (parseMrkdwn element) c
  = count_occ N.eq_dec (concat (literals element)) c
    + count_occ N.eq_dec (delimiters element) c.
Proof.
  induction element using PhrasingToken_tree_ind;
    cbn [parseMrkdwn literals delimiters concat];
    rewrite ?join_empty_sep;
    try (pose proof (count_children c _ H) as Hchildren);
    try change (str "<|> ") with (str "<" ++ str "|" ++ str "> ");
    try change (str "__") with (str "_" ++ str "_");
    try change (str "**") with (str "*" ++ str "*");
    try change (str "~~") with (str "~" ++ str "~");
    try change (str "``") with (str "`" ++ str "`");
    rewrite ?app_nil_r, ?count_occ_app; cbn [count_occ];
    unfold code_unit, jsstring in *; lia.
Qed.

Lemma delimiters_links (element : PhrasingToken) :
  count_occ N.eq_dec (delimiters element) LT = linkCount element
  /\ count_occ N.eq_dec (delimiters element) GT = linkCount element.
Proof.
  assert (Hchildren : forall tokens,
             Forall (fun child =>
                       count_occ N.eq_dec (delimiters child) LT
                       = linkCount child
                       /\ count_occ N.eq_dec (delimiters child) GT
                          = linkCount child) tokens ->
             count_occ N.eq_dec (flat_map delimiters tokens) LT
             = list_sum (map linkCount tokens)
             /\ count_occ N.eq_dec (flat_map delimiters tokens) GT
                = list_sum (map linkCount tokens)).
  { induction 1 as [|child rest [Hlt Hgt] _ [IHlt IHgt]]; [now split|].
    cbn [flat_map map]. rewrite !count_occ_app.
    unfold code_unit, jsstring in *.
    rewrite Hlt, Hgt, IHlt, IHgt. now split. }
  induction element using PhrasingToken_tree_ind;
    cbn [delimiters linkCount]; try (now split);
    destruct (Hchildren _ H) as [Hlt Hgt];
    rewrite !count_occ_app; unfold code_unit, jsstring in *;
    rewrite Hlt, Hgt; now split.
Qed.

Lemma count_concat_none (c : code_unit) (parts : list jsstring) :
  Forall (fun part => ~ In c part) parts ->
  count_occ N.eq_dec (concat parts) c = 0.
Proof.
  induction 1 as [|part rest Hpart _ IH]; [reflexivity|].
  cbn [concat]. rewrite count_occ_app.
  apply (count_occ_not_In N.eq_dec) in Hpart.
  unfold code_unit, jsstring in *. lia.
Qed.

(** X12. When the texts and hrefs of a token tree hold no angle bracket,
    its rendering holds exactly one opening and one closing angle bracket
    per link of the tree: angle brackets in a section text are link
    delimiters and nothing else. *)
Theorem markup_angle_brackets :
  forall element : PhrasingToken,
    Forall (fun literal => ~ In LT literal) (literals element) ->
    Forall (fun literal => ~ In GT literal) (literals element) ->
    count_occ N.eq_dec (parseMrkdwn element) LT = linkCount element
    /\ count_occ N.eq_dec (parseMrkdwn element) GT = linkCount element.
Proof.
  intros element Hlt Hgt.
  rewrite !count_parseMrkdwn.
  rewrite (count_concat_none LT _ Hlt), (count_concat_none GT _ Hgt).
  apply delimiters_links.
Qed.

Lemma markup_angle_brackets_witness :
  count_occ N.eq_dec
    (parseMrkdwn (Strong [Link (str "https://example.com") [Em [txt (str "d")]];
                          txt (str " e")])) LT
  = 1.
Proof.
  apply (markup_angle_brackets
           (Strong [Link (str "https://example.com") [Em [txt (str "d")]];
                    txt (str " e")])).
  - repeat constructor; cbn; intros H;
      repeat (destruct H as [H|H]; [discriminate H|]); exact H.
  - repeat constructor; cbn; intros H;
      repeat (destruct H as [H|H]; [discriminate H|]); exact H.
Defined.

(** ** Block quotes *)

Lemma quoteBlock_LF_free (text : jsstring) :
  ~ In LF text -> quoteBlock (SectionBlock text) = SectionBlock text.
Proof.
  intros Htext. cbn [quoteBlock].
  destruct (includesLF text) eqn:E; [|reflexivity].
  apply includesLF_In in E. now elim Htext.
Qed.

Lemma replaceLF_length (text : jsstring) :
  length (replaceLF text) = length text + 2 * count_occ N.eq_dec text LF.
Proof.
  induction text as [|c rest IH]; [reflexivity|].
  unfold replaceLF in *. cbn [flat_map count_occ].
  rewrite length_app, IH.
  destruct (N.eqb_spec c LF) as [->|Hc].
  - destruct (N.eq_dec LF LF) as [_|Hne]; [|now elim Hne]. cbn. lia.
  - destruct (N.eq_dec c LF) as [E|_]; [now elim Hc|]. cbn. lia.
Qed.

(** X13. Quoting returns a section without newline as it is, and lengthens
    a section that holds newlines by two characters for the text and two
    more for each newline. *)
Theorem quoted_text_length :
  forall text : jsstring,
    match count_occ N.eq_dec text LF with
    | 0 => quoteBlock (SectionBlock text) = SectionBlock text
    | S newlines =>
        exists quoted,
          quoteBlock (SectionBlock text) = SectionBlock quoted
          /\ length quoted = length text + 2 + 2 * S newlines
    end.
Proof.
  intros text.
  destruct (count_occ N.eq_dec text LF) as [|newlines] eqn:Ecount.
  - apply quoteBlock_LF_free.
    now apply (count_occ_not_In N.eq_dec).
  - assert (Hin : In LF text).
    { apply (count_occ_In N.eq_dec). lia. }
    apply includesLF_In in Hin.
    cbn [quoteBlock]. rewrite Hin.
    eexists. split; [reflexivity|].
    rewrite length_app, replaceLF_length, Ecount.
    change (length (str "> ")) with 2. lia.
Qed.

Lemma delimiters_no_LF (element : PhrasingToken) :
  count_occ N.eq_dec (delimiters element) LF = 0.
Proof.
  assert (Hchildren : forall tokens,
             Forall (fun child =>
                       count_occ N.eq_dec (delimiters child) LF = 0) tokens ->
             count_occ N.eq_dec (flat_map delimiters tokens) LF = 0).
  { induction 1 as [|child rest Hchild _ IH]; [reflexivity|].
    cbn [flat_map]. rewrite count_occ_app.
    unfold code_unit, jsstring in *. now rewrite Hchild, IH. }
  induction element using PhrasingToken_tree_ind;
    cbn [delimiters]; try reflexivity;
    rewrite count_occ_app; unfold code_unit, jsstring in *;
    now rewrite (Hchildren _ H).
Qed.

Lemma parseMrkdwn_no_LF (element : PhrasingToken) :
  Forall (fun literal => ~ In LF literal) (literals element) ->
  ~ In LF (parseMrkdwn element).
Proof.
  intros Hliterals. apply (count_occ_not_In N.eq_dec).
  rewrite count_parseMrkdwn, delimiters_no_LF.
  now rewrite (count_concat_none LF _ Hliterals).
Qed.

Lemma quoteBlock_no_LF (text : jsstring) :
  ~ In LF text -> quoteBlock (SectionBlock text) = SectionBlock text.
Proof.
  intros Htext. cbn [quoteBlock].
  destruct (includesLF text) eqn:E; [|reflexivity].
  apply includesLF_In in E. now elim Htext.
Qed.

Lemma blocksFrom_no_LF (tokens : list PhrasingToken) :
  forall open,
    match open with
    | Some text => ~ In LF text
    | None => True
    end ->
    Forall (fun child => ~ In LF (parseMrkdwn child)) tokens ->
    map quoteBlock (blocksFrom open tokens) = blocksFrom open tokens.
Proof.
  apply (blocksFrom_ind
           (fun open tokens out =>
              match open with
              | Some text => ~ In LF text
              | None => True
              end ->
              Forall (fun child => ~ In LF (parseMrkdwn child)) tokens ->
              map quoteBlock out = out)).
  - intros [text|] Hopen _; [|reflexivity].
    cbn [map]. now rewrite quoteBlock_no_LF.
  - intros open href title text rest IH Hopen Hall.
    inversion Hall as [|? ? _ Hrest]; subst.
    rewrite map_app. cbn [map]. rewrite (IH I Hrest).
    f_equal. destruct open as [shown|]; [|reflexivity].
    cbn [map]. now rewrite quoteBlock_no_LF.
  - intros open child rest _ open' IH Hopen Hall.
    inversion Hall as [|? ? Hchild Hrest]; subst.
    apply IH; [|assumption].
    subst open'. destruct open as [text|].
    + intros Hin. apply in_app_or in Hin. tauto.
    + intros Hin. apply Hchild.
      unfold slice0 in Hin.
      rewrite <- (firstn_skipn slack.MAX_TEXT_LENGTH (parseMrkdwn child)).
      apply in_or_app. now left.
Qed.

(** X14. A block quote is marked only where a newline is: when the texts
    and hrefs of the quoted paragraphs hold no newline, the blocks of the
    quote are the blocks of its paragraphs as they are outside a quote,
    without any quote marker. *)
Theorem single_line_quote_unmarked :
  forall tokens : list Token,
    (forall child inline,
        In child tokens ->
        In inline (paragraphTokens child) ->
        Forall (fun literal => ~ In LF literal) (literals inline)) ->
    parseBlockquote tokens
    = flat_map (fun p => parseParagraph (paragraphTokens p))
               (filter isParagraph tokens).
Proof.
  induction tokens as [|child rest IH]; intros Hliterals; [reflexivity|].
  rewrite parseBlockquote_cons, IH
    by (intros; apply (Hliterals child0 inline); [now right|assumption]).
  cbn [filter]. destruct (isParagraph child); [|reflexivity].
  cbn [flat_map]. f_equal.
  rewrite parseParagraph_blocksFrom. apply blocksFrom_no_LF; [exact I|].
  apply Forall_forall. intros inline Hin.
  apply parseMrkdwn_no_LF, (Hliterals child inline); [now left|assumption].
Qed.

Lemma single_line_quote_unmarked_witness :
  parseBlockquote [Paragraph (str "a") [txt (str "a"); Em [txt (str "b")]]]
  = flat_map (fun p => parseParagraph (paragraphTokens p))
             (filter isParagraph
                     [Paragraph (str "a") [txt (str "a"); Em [txt (str "b")]]]).
Proof.
  apply single_line_quote_unmarked.
  intros child inline [<-|[]] Hin.
  destruct Hin as [<-|[<-|[]]]; repeat constructor; cbn; intros H;
    repeat (destruct H as [H|H]; [discriminate H|]); exact H.
Defined.

(** ** Raw HTML and exceptions *)

Lemma mapM_throws {A B : Type} (f : A -> result B) (xs : list A) :
  mapM f xs = Throw <-> exists x, In x xs /\ f x = Throw.
Proof.
  induction xs as [|x rest IH]; cbn [mapM].
  - split; [discriminate|intros [x [[] _]]].
  - destruct (f x) as [b|] eqn:E; cbn [bind].
    + destruct (mapM f rest) as [bs|]; cbn [bind].
      * split; [discriminate|].
        intros [y [[<-|Hin] Hy]]; [congruence|].
        assert (H : Ok bs = Throw) by (apply IH; eauto). discriminate H.
      * split; [|reflexivity]. intros _.
        destruct (proj1 IH eq_refl) as [y [Hin Hy]]. exists y. split; auto.
        now right.
    + split; [|reflexivity]. intros _. exists x. split; [now left|assumption].
Qed.

Lemma mapM_ok {A B : Type} (f : A -> result B) (xs : list A) :
  forall ys, mapM f xs = Ok ys -> Forall2 (fun x y => f x = Ok y) xs ys.
Proof.
  induction xs as [|x rest IH]; intros ys; cbn [mapM].
  - intros [= <-]. constructor.
  - destruct (f x) as [b|] eqn:E; cbn [bind]; [|discriminate].
    destruct (mapM f rest) as [bs|]; cbn [bind]; [|discriminate].
    intros [= <-]. constructor; [assumption|now apply IH].
Qed.

Lemma parseHTML_nodes xml (raw : jsstring) (img : XmlImg) :
  xml raw = Ok img -> parseHTML xml raw = mapM imgBlock (imgNodes img).
Proof.
  intros E. unfold parseHTML. rewrite E. cbn [bind].
  destruct img as [|[[|]|src alt]|nodes]; reflexivity.
Qed.

Lemma imgBlock_throws (node : XmlNode) :
  imgBlock node = Throw
  <-> attr_src node = None
      /\ (attr_alt node = None \/ attr_alt node = Some []).
Proof.
  unfold imgBlock.
  destruct (attr_alt node) as [[|c alt]|], (attr_src node) as [src|]; cbn;
    split; try discriminate; try tauto;
    intros [H1 H2]; try discriminate; destruct H2; discriminate.
Qed.

(** X15. Once the XML parser has returned, raw HTML makes the converter
    throw exactly when one of the [img] nodes found has no [src] attribute
    and no [alt] attribute or an empty one. *)
Theorem html_throws_iff :
  forall xml (raw : jsstring) (img : XmlImg),
    xml raw = Ok img ->
    (parseHTML xml raw = Throw
     <-> exists node,
        In node (imgNodes img)
        /\ attr_src node = None
        /\ (attr_alt node = None \/ attr_alt node = Some [])).
Proof.
  intros xml raw img E.
  rewrite (parseHTML_nodes xml raw img E), mapM_throws.
  split; intros [node [Hin H]]; exists node; split; try assumption;
    now apply imgBlock_throws.
Qed.

Lemma html_throws_iff_witness :
  parseHTML (fun _ => Ok (ImgMany [XmlElement (Some (str "u")) None;
                                   XmlLeaf true])) [] = Throw.
Proof.
  apply (html_throws_iff
           (fun _ => Ok (ImgMany [XmlElement (Some (str "u")) None;
                                  XmlLeaf true]))
           [] (ImgMany [XmlElement (Some (str "u")) None; XmlLeaf true])
           eq_refl).
  exists (XmlLeaf true). split; [right; left; reflexivity|].
  split; [reflexivity|left; reflexivity].
Defined.

(** X16. When raw HTML is converted without an exception, it gives one
    image block per [img] node found, in order: its url is the [src]
    attribute, its alt text the first 2000 characters of the [alt] attribute
    or, when that is missing or empty, of the [src] attribute, and it has no
    title. *)
Theorem html_image_blocks :
  forall xml (raw : jsstring) (img : XmlImg) (blocks : list KnownBlock),
    xml raw = Ok img ->
    parseHTML xml raw = Ok blocks ->
    Forall2 (fun node block =>
               exists altText,
                 match attr_alt node with
                 | Some (c :: alt) => Some (c :: alt)
                 | _ => attr_src node
                 end = Some altText
                 /\ block = ImageBlock (attr_src node) (firstn 2000 altText)
                              None)
            (imgNodes img) blocks.
Proof.
  intros xml raw img blocks E Hok.
  rewrite (parseHTML_nodes xml raw img E) in Hok.
  apply mapM_ok in Hok.
  eapply Forall2_impl; [|exact Hok].
  intros node block. unfold imgBlock.
  destruct (attr_alt node) as [[|c alt]|]; cbn [truthy].
  - destruct (attr_src node) as [src|]; [|discriminate].
    intros [= <-]. now exists src.
  - intros [= <-]. now exists (c :: alt).
  - destruct (attr_src node) as [src|]; [|discriminate].
    intros [= <-]. now exists src.
Qed.

Lemma html_image_blocks_witness :
  Forall2 (fun node block =>
             exists altText,
               match attr_alt node with
               | Some (c :: alt) => Some (c :: alt)
               | _ => attr_src node
               end = Some altText
               /\ block = ImageBlock (attr_src node) (firstn 2000 altText) None)
          (imgNodes (ImgOne (XmlElement (Some (str "u")) None)))
          [ImageBlock (Some (str "u")) (str "u") None].
Proof.
  apply (html_image_blocks
           (fun _ => Ok (ImgOne (XmlElement (Some (str "u")) None))) []).
  - reflexivity.
  - reflexivity.
Defined.

Lemma flatMapM_throws {A B : Type} (f : A -> result (list B)) (xs : list A) :
  flatMapM f xs = Throw <-> exists x, In x xs /\ f x = Throw.
Proof.
  induction xs as [|x rest IH]; cbn [flatMapM].
  - split; [discriminate|intros [x [[] _]]].
  - destruct (f x) as [b|] eqn:E; cbn [bind].
    + destruct (flatMapM f rest) as [bs|]; cbn [bind].
      * split; [discriminate|].
        intros [y [[<-|Hin] Hy]]; [congruence|].
        assert (H : Ok bs = Throw) by (apply IH; eauto). discriminate H.
      * split; [|reflexivity]. intros _.
        destruct (proj1 IH eq_refl) as [y [Hin Hy]]. exists y. split; auto.
        now right.
    + split; [|reflexivity]. intros _. exists x. split; [now left|assumption].
Qed.

(** X17. A conversion throws exactly when the conversion of one of its raw
    HTML tokens throws: no other kind of token can make it fail, and one
    failing HTML token anywhere makes the whole conversion fail. *)
Theorem parseBlocks_throws_iff :
  forall xml options (tokens : list Token),
    parseBlocks xml tokens options = Throw
    <-> exists raw text,
        In (HtmlBlock raw text) tokens /\ parseHTML xml raw = Throw.
Proof.
  intros xml options tokens. unfold parseBlocks.
  rewrite flatMapM_throws. split.
  - intros [token [Hin Hthrow]].
    destruct token; try discriminate. now exists raw, text.
  - intros [raw [text [Hin Hthrow]]]. now exists (HtmlBlock raw text).
Qed.

Lemma flatMapM_app {A B : Type} (f : A -> result (list B)) (xs ys : list A) :
  flatMapM f (xs ++ ys)
  = match flatMapM f xs, flatMapM f ys with
    | Ok first, Ok second => Ok (first ++ second)
    | _, _ => Throw
    end.
Proof.
  induction xs as [|x rest IH]; cbn [app flatMapM].
  - now destruct (flatMapM f ys).
  - destruct (f x) as [b|]; cbn [bind]; [|reflexivity].
    rewrite IH.
    destruct (flatMapM f rest) as [bs|]; cbn [bind]; [|reflexivity].
    destruct (flatMapM f ys) as [cs|]; [|reflexivity].
    now rewrite <- app_assoc.
Qed.

(** X18. Top-level tokens are converted independently: the blocks of two
    token sequences put end to end are the blocks of the first followed by
    the blocks of the second, and the conversion throws when that of either
    part does. *)
Theorem parseBlocks_app :
  forall xml options (first second : list Token),
    parseBlocks xml (first ++ second) options
    = match parseBlocks xml first options, parseBlocks xml second options with
      | Ok blocks, Ok blocks' => Ok (blocks ++ blocks')
      | _, _ => Throw
      end.
Proof. intros. apply flatMapM_app. Qed.

Lemma parseListItem_unchecked options options' index (item : ListItem) :
  item_checked item = None ->
  parseListItem false options index item
  = parseListItem false options' index item.
Proof.
  destruct item as [checked tokens]. cbn [item_checked]. intros ->.
  unfold parseListItem. cbn [item_tokens item_checked].
  destruct (nth_error tokens 0) as [[| | | | | | | | | |text [[|c cs]|]]|];
    reflexivity.
Qed.

Lemma listContents_unchecked options options' (items : list ListItem) :
  Forall (fun item => item_checked item = None) items ->
  forall index,
    listContents false options index items
    = listContents false options' index items.
Proof.
  induction 1 as [|item rest Hitem _ IH]; intros index; [reflexivity|].
  cbn [listContents].
  rewrite (parseListItem_unchecked options options' index item Hitem).
  destruct (parseListItem false options' index item) as [line index'].
  now rewrite IH.
Qed.

(** X19. The options reach the output through one door only: an unordered
    list with an item that has a checked state.  Any other token is
    converted to the same blocks whatever the options. *)
Theorem options_only_for_checklists :
  forall xml options options' (token : Token),
    match token with
    | List false items => Forall (fun item => item_checked item = None) items
    | _ => True
    end ->
    parseToken xml token options = parseToken xml token options'.
Proof.
  intros xml options options' token Htoken.
  destruct token; try reflexivity.
  destruct ordered.
  - now apply ordered_contents_any_options.
  - cbn [parseToken]. unfold parseList.
    now rewrite (listContents_unchecked _
                   (match lists options' with
                    | Some o => o
                    | None => noListOptions
                    end) items Htoken 0).
Qed.

Lemma options_only_for_checklists_witness :
  parseToken noImg
    (List false [mkListItem None [TextBlock (str "a") (Some [txt (str "a")])]])
    (mkParsingOptions (Some (mkListOptions (Some (fun _ => str "[x] ")))))
  = parseToken noImg
      (List false [mkListItem None [TextBlock (str "a") (Some [txt (str "a")])]])
      noOptions.
Proof.
  apply options_only_for_checklists.
  repeat constructor.
Defined.

(** ** The tokenizer overrides *)

(** The piece that one character of the decoded text becomes. *)
Lemma escapeSpecial_cons (char : code_unit) (rest : jsstring) :
  exists piece,
    escapeSpecial (char :: rest) = piece ++ escapeSpecial rest
    /\ ((char = AMP /\ piece = str "&amp;")
        \/ (char = LT /\ piece = str "&lt;")
        \/ (char = GT /\ piece = str "&gt;")
        \/ (isSpecial char = false /\ piece = [char])).
Proof.
  unfold escapeSpecial. cbn [flat_map]. eexists. split; [reflexivity|].
  unfold isSpecial, replacements.
  destruct (N.eqb_spec char AMP) as [->|Hamp]; [now left|].
  destruct (N.eqb_spec char LT) as [->|Hlt]; [right; now left|].
  destruct (N.eqb_spec char GT) as [->|Hgt]; [right; right; now left|].
  right; right; right. now split.
Qed.

Lemma isSpecial_false (char : code_unit) :
  isSpecial char = false -> char <> AMP /\ char <> LT /\ char <> GT.
Proof.
  unfold isSpecial. intros H.
  repeat split; intros ->; discriminate H.
Qed.

Lemma escapeSpecial_brackets (decoded : jsstring) :
  ~ In LT (escapeSpecial decoded) /\ ~ In GT (escapeSpecial decoded).
Proof.
  induction decoded as [|char rest [IHlt IHgt]]; [split; intros []|].
  destruct (escapeSpecial_cons char rest) as [piece [-> Hpiece]].
  assert (Hin : ~ In LT piece /\ ~ In GT piece).
  { destruct Hpiece as [[_ ->]|[[_ ->]|[[_ ->]|[Hchar ->]]]];
      try (split; cbn; intros H;
           repeat (destruct H as [H|H]; [discriminate H|]); exact H).
    apply isSpecial_false in Hchar.
    split; intros [H|[]]; tauto. }
  split; intros H; apply in_app_or in H; tauto.
Qed.

(** X20. Whatever the entity decoder returns, the text of a token built by
    the overridden text rule or code span rule holds no angle bracket, and
    neither does the rendering of that token. *)
Theorem tokenizer_text_has_no_angle_bracket :
  forall (decode : jsstring -> jsstring) (token : PhrasingToken),
    (exists cap, inlineText decode cap = Some token)
    \/ (exists cap, codespan decode cap = Some token) ->
    Forall (fun literal => ~ In LT literal /\ ~ In GT literal) (literals token)
    /\ ~ In LT (parseMrkdwn token)
    /\ ~ In GT (parseMrkdwn token).
Proof.
  intros decode token [[[cap0|] H]|[[[cap0 cap2]|] H]]; try discriminate;
    injection H as <-; cbn [literals parseMrkdwn];
    unfold decodeAndEscape;
    match goal with
    | |- context [escapeSpecial ?s] =>
        destruct (escapeSpecial_brackets s) as [Hlt Hgt]
    end.
  - split; [|split; assumption].
    constructor; [now split|constructor].
  - split; [constructor; [now split|constructor]|].
    split; intros H; apply in_app_or in H; destruct H as [H|H];
      try (destruct H as [H|[]]; discriminate H);
      apply in_app_or in H; destruct H as [H|H];
      try (destruct H as [H|[]]; discriminate H); tauto.
Qed.

Lemma tokenizer_text_has_no_angle_bracket_witness :
  ~ In LT (parseMrkdwn (Text (str "a<b") (escapeSpecial (str "a<b")))).
Proof.
  apply (tokenizer_text_has_no_angle_bracket (fun src => src)
           (Text (str "a<b") (escapeSpecial (str "a<b")))).
  left. exists (Some (str "a<b")). reflexivity.
Defined.

(** X21. Escaping loses nothing: two decoded texts with the same escaped
    text are the same text. *)
Theorem escapeSpecial_injective :
  forall a b : jsstring, escapeSpecial a = escapeSpecial b -> a = b.
Proof.
  induction a as [|c a' IH]; intros [|d b'] H.
  - reflexivity.
  - destruct (escapeSpecial_cons d b') as [piece [E Hpiece]].
    rewrite E in H. exfalso.
    destruct Hpiece as [[_ ->]|[[_ ->]|[[_ ->]|[_ ->]]]]; discriminate H.
  - destruct (escapeSpecial_cons c a') as [piece [E Hpiece]].
    rewrite E in H. exfalso.
    destruct Hpiece as [[_ ->]|[[_ ->]|[[_ ->]|[_ ->]]]]; discriminate H.
  - destruct (escapeSpecial_cons c a') as [p [Ep Hp]].
    destruct (escapeSpecial_cons d b') as [q [Eq Hq]].
    rewrite Ep, Eq in H.
    destruct Hp as [[-> ->]|[[-> ->]|[[-> ->]|[Hc ->]]]];
      destruct Hq as [[-> ->]|[[-> ->]|[[-> ->]|[Hd ->]]]];
      try discriminate H;
      try (injection H as H; f_equal; now apply IH);
      try (apply isSpecial_false in Hd; injection H as Hhead _;
           exfalso; symmetry in Hhead; tauto);
      try (apply isSpecial_false in Hc; injection H as Hhead _;
           exfalso; tauto).
    injection H as -> H. f_equal. now apply IH.
Qed.

Lemma escapeSpecial_injective_witness :
  str "a&b" = str "a&b".
Proof.
  apply (escapeSpecial_injective (str "a&b") (str "a&b")).
  reflexivity.
Defined.

Lemma escapeSpecial_length (decoded : jsstring) :
  length (escapeSpecial decoded)
  = length decoded
    + 4 * count_occ N.eq_dec decoded AMP
    + 3 * count_occ N.eq_dec decoded LT
    + 3 * count_occ N.eq_dec decoded GT.
Proof.
  induction decoded as [|char rest IH]; [reflexivity|].
  destruct (escapeSpecial_cons char rest) as [piece [-> Hpiece]].
  rewrite length_app, IH. cbn [count_occ length].
  destruct Hpiece as [[-> ->]|[[-> ->]|[[-> ->]|[Hchar ->]]]]; cbn.
  - lia.
  - lia.
  - lia.
  - apply isSpecial_false in Hchar. destruct Hchar as (Hamp & Hlt & Hgt).
    destruct (N.eq_dec char AMP); [tauto|].
    destruct (N.eq_dec char LT); [tauto|].
    destruct (N.eq_dec char GT); [tauto|].
    lia.
Qed.

(** X22. The escaped text is the decoded text lengthened by four characters
    for each ampersand and three for each angle bracket; the record of
    replacements has an entry for every character the pattern matches, so
    the word undefined is never written; and the text is left as it is
    exactly when it holds none of the three characters. *)
Theorem escapeSpecial_effect :
  forall decoded : jsstring,
    length (escapeSpecial decoded)
    = length decoded
      + 4 * count_occ N.eq_dec decoded AMP
      + 3 * count_occ N.eq_dec decoded LT
      + 3 * count_occ N.eq_dec decoded GT
    /\ (forall char, isSpecial char = true -> replacements char <> None)
    /\ (escapeSpecial decoded = decoded
        <-> Forall (fun char => isSpecial char = false) decoded).
Proof.
  intros decoded. split; [apply escapeSpecial_length|]. split.
  - intros char. unfold isSpecial, replacements.
    destruct (N.eqb char AMP), (N.eqb char LT), (N.eqb char GT);
      discriminate.
  - split.
    + intros Hsame.
      pose proof (escapeSpecial_length decoded) as Hlength.
      rewrite Hsame in Hlength.
      apply Forall_forall. intros char Hin.
      destruct (isSpecial char) eqn:E; [exfalso|reflexivity].
      unfold isSpecial in E.
      apply orb_true_iff in E. destruct E as [E|E];
        [apply orb_true_iff in E; destruct E as [E|E]|];
        apply N.eqb_eq in E; subst char;
        apply (count_occ_In N.eq_dec) in Hin; lia.
    + induction 1 as [|char rest Hchar _ IH]; [reflexivity|].
      destruct (escapeSpecial_cons char rest) as [piece [-> Hpiece]].
      destruct Hpiece as [[-> _]|[[-> _]|[[-> _]|[_ ->]]]];
        try discriminate Hchar.
      cbn [app]. now rewrite IH.
Qed.

Lemma substring_inner (first last : code_unit) (middle : jsstring) :
  substring 1 (length (first :: middle ++ [last]) - 1)
            (first :: middle ++ [last])
  = middle.
Proof.
  unfold substring. cbn [length]. rewrite length_app. cbn [length].
  replace (S (length middle + 1) - 1) with (S (length middle)) by lia.
  rewrite Nat.max_r, Nat.min_l by lia.
  cbn [firstn skipn].
  rewrite firstn_app, Nat.sub_diag, firstn_all. cbn [firstn].
  apply app_nil_r.
Qed.

Lemma In_substring (c : code_unit) (start stop : nat) (s : jsstring) :
  In c (substring start stop s) -> In c s.
Proof.
  unfold substring. intros H.
  rewrite <- (firstn_skipn (Nat.max start stop) s). apply in_or_app. left.
  rewrite <- (firstn_skipn (Nat.min start stop)
                           (firstn (Nat.max start stop) s)).
  apply in_or_app. now right.
Qed.

Lemma map_constant {A B : Type} (f : A -> B) (b : B) (l : list A) :
  Forall (fun a => f a = b) l -> map f l = repeat b (length l).
Proof.
  induction 1 as [|a rest Ha _ IH]; [reflexivity|].
  cbn [map length repeat]. now rewrite Ha, IH.
Qed.

(** X23. The text of a code span never holds a newline: each one becomes a
    space.  When the span then starts and ends with a space and holds
    another character than spaces, exactly one space is removed at each end;
    a span of spaces only, and a span that does not start with a space, are
    kept whole. *)
Theorem codespan_text_padding :
  forall cap2 : jsstring,
    let spaced := fun c => if N.eqb c LF then SPACE else c in
    ~ In LF (codespanText cap2)
    /\ (forall first middle last,
           cap2 = first :: middle ++ [last] ->
           spaced first = SPACE ->
           spaced last = SPACE ->
           (exists c, In c middle /\ spaced c <> SPACE) ->
           codespanText cap2 = map spaced middle)
    /\ (Forall (fun c => spaced c = SPACE) cap2 ->
        codespanText cap2 = repeat SPACE (length cap2))
    /\ (forall first rest,
           cap2 = first :: rest ->
           spaced first <> SPACE ->
           codespanText cap2 = map spaced cap2).
Proof.
  intros cap2 spaced.
  assert (Htext : ~ In LF (map spaced cap2)).
  { intros H. apply in_map_iff in H. destruct H as [c [Hc _]].
    subst spaced. cbn beta in Hc.
    destruct (N.eqb_spec c LF); [discriminate Hc|congruence]. }
  split; [|split; [|split]].
  - unfold codespanText. fold spaced.
    destruct (_ && _); [|assumption].
    intros H. now apply In_substring in H.
  - intros first middle last -> Hfirst Hlast [c [Hin Hc]].
    unfold codespanText. fold spaced.
    rewrite map_cons, map_app. cbn [map].
    rewrite Hfirst, Hlast.
    match goal with
    | |- context [existsb ?f ?l] => assert (Hnon : existsb f l = true)
    end.
    { apply existsb_exists. exists (spaced c). split.
      - right. apply in_or_app. left. now apply in_map.
      - apply negb_true_iff, N.eqb_neq. exact Hc. }
    rewrite Hnon.
    match goal with
    | |- context [endsWithSpace ?l] => assert (Hend : endsWithSpace l = true)
    end.
    { exact (f_equal (fun o => match o with
                               | Some c => N.eqb c SPACE
                               | None => false
                               end)
                     (lastOf_app_one (SPACE :: map spaced middle) SPACE)). }
    rewrite Hend. cbn [startsWithSpace andb].
    change (N.eqb SPACE SPACE) with true. cbn [andb].
    apply substring_inner.
  - intros Hall. unfold codespanText. fold spaced.
    assert (Hspaces : map spaced cap2 = repeat SPACE (length cap2)).
    { now apply map_constant. }
    rewrite Hspaces.
    match goal with
    | |- context [existsb ?f ?l] => assert (Hnon : existsb f l = false)
    end.
    { clear. induction (length cap2) as [|n IH]; [reflexivity|]. exact IH. }
    now rewrite Hnon.
  - intros first rest -> Hfirst.
    unfold codespanText. fold spaced. rewrite map_cons.
    unfold startsWithSpace.
    apply N.eqb_neq in Hfirst. rewrite Hfirst.
    now rewrite andb_false_r.
Qed.

Lemma codespan_text_padding_witness :
  codespanText (str " a b ") = str "a b".
Proof.
  apply (proj1 (proj2 (codespan_text_padding (str " a b ")))
           SPACE (str "a b") SPACE).
  - reflexivity.
  - reflexivity.
  - reflexivity.
  - exists 97%N. split; [now left|discriminate].
Defined.

(** ** What a paragraph and a heading keep of their children *)

(** X24. A paragraph loses no text: when the rendering of each child fits
    the section cap, the texts of its sections put end to end are the
    renderings of its children that are not images, in order. *)
Theorem paragraph_keeps_text :
  forall tokens : list PhrasingToken,
    Forall (fun child => length (parseMrkdwn child) <= 3000) tokens ->
    concat (map sectionText (parseParagraph tokens))
    = concat (map parseMrkdwn
                  (filter (fun child => negb (isImage child)) tokens)).
Proof.
  intros tokens. rewrite parseParagraph_blocksFrom.
  apply (blocksFrom_ind
           (fun open tokens out =>
              Forall (fun child => length (parseMrkdwn child) <= 3000) tokens ->
              concat (map sectionText out)
              = match open with
                | Some text => text
                | None => []
                end
                  ++ concat (map parseMrkdwn
                                 (filter (fun child => negb (isImage child))
                                         tokens)))).
  - intros [text|] _; reflexivity.
  - intros open href title text rest IH Hall.
    inversion Hall as [|? ? _ Hrest]; subst.
    rewrite map_app, concat_app. cbn [map concat sectionText slack.image].
    cbn [filter isImage negb app]. rewrite (IH Hrest). cbn [app].
    destruct open; cbn; now rewrite ?app_nil_r.
  - intros open child rest Hchild open' IH Hall.
    inversion Hall as [|? ? Hfits Hrest]; subst.
    rewrite (IH Hrest). cbn [filter]. rewrite Hchild. cbn [negb map concat].
    subst open'. destruct open as [text|].
    + now rewrite <- app_assoc.
    + now rewrite slice0_short by assumption.
Qed.

Lemma paragraph_keeps_text_witness :
  concat (map sectionText
              (parseParagraph [txt (str "a"); Image (str "u") None [];
                               Em [txt (str "b")]]))
  = str "a_b_".
Proof.
  apply (paragraph_keeps_text
           [txt (str "a"); Image (str "u") None []; Em [txt (str "b")]]).
  repeat constructor; cbn; lia.
Defined.

Lemma filter_app_delimiters (a b : jsstring) :
  filter (fun c => negb (isStyleDelimiter c)) (a ++ b)
  = filter (fun c => negb (isStyleDelimiter c)) a
      ++ filter (fun c => negb (isStyleDelimiter c)) b.
Proof. apply filter_app. Qed.

Lemma filter_no_delimiter (text : jsstring) :
  Forall (fun c => isStyleDelimiter c = false) text ->
  filter (fun c => negb (isStyleDelimiter c)) text = text.
Proof.
  induction 1 as [|c rest Hc _ IH]; [reflexivity|].
  cbn [filter]. rewrite Hc, IH. reflexivity.
Qed.

Lemma styled_children (tokens : list PhrasingToken) :
  Forall (fun child =>
            styledOnly child ->
            filter (fun c => negb (isStyleDelimiter c)) (parseMrkdwn child)
            = concat (parsePlainText child)) tokens ->
  fold_right (fun child rest => styledOnly child /\ rest) True tokens ->
  filter (fun c => negb (isStyleDelimiter c))
         (concat (map parseMrkdwn tokens))
  = concat (flat_map parsePlainText tokens).
Proof.
  induction 1 as [|child rest Hchild _ IH]; [reflexivity|].
  cbn [fold_right map concat flat_map]. intros [Hstyled Hrest].
  rewrite filter_app_delimiters, concat_app, (Hchild Hstyled), (IH Hrest).
  reflexivity.
Qed.

(** X25. For children made of emphasis, strong and strikethrough around
    plain text, the plain text of a heading is the markup of a paragraph
    with the style delimiters taken out: flattening drops the styles and
    nothing else. *)
Theorem plain_text_is_markup_without_delimiters :
  forall element : PhrasingToken,
    styledOnly element ->
    filter (fun c => negb (isStyleDelimiter c)) (parseMrkdwn element)
    = concat (parsePlainText element).
Proof.
  induction element using PhrasingToken_tree_ind;
    cbn [styledOnly]; try (intros []; fail).
  - intros Hstyled. cbn [parseMrkdwn parsePlainText].
    rewrite join_empty_sep, !filter_app_delimiters.
    rewrite (styled_children tokens H Hstyled). cbn. apply app_nil_r.
  - intros Hstyled. cbn [parseMrkdwn parsePlainText].
    rewrite join_empty_sep, !filter_app_delimiters.
    rewrite (styled_children tokens H Hstyled). cbn. apply app_nil_r.
  - intros Hstyled. cbn [parseMrkdwn parsePlainText].
    rewrite join_empty_sep, !filter_app_delimiters.
    rewrite (styled_children tokens H Hstyled). cbn. apply app_nil_r.
  - intros [-> Htext]. cbn [parseMrkdwn parsePlainText concat].
    rewrite app_nil_r. now apply filter_no_delimiter.
Qed.

Lemma plain_text_is_markup_without_delimiters_witness :
  filter (fun c => negb (isStyleDelimiter c))
         (parseMrkdwn (Strong [txt (str "a "); Del [txt (str "b")]]))
  = str "a b".
Proof.
  apply (plain_text_is_markup_without_delimiters
           (Strong [txt (str "a "); Del [txt (str "b")]])).
  cbn. repeat split; repeat constructor.
Defined.
